(** * Type-name lookup of the protobuf-ts plugin framework

    A shallow embedding of the class [TypeNameLookup] and of the function
    [composeTypeName]: the ancestor climb of [TypeNameLookup.from], the
    composition of qualified names, the construction of the two maps and
    the four lookup operations, with the properties the specification
    states about them; and of the two JSON methods of the message type of
    [google.protobuf.Duration].

    Strings are sequences of bytes here and of UTF-16 code units in the
    source; the operations used ([startsWith] and [substring] on one
    period, [join] with a period) agree on both, a period being one unit in
    either encoding. *)

From Stdlib Require Import String Ascii List Arith Lia.
From Stdlib Require Import ZArith Decimal DecimalFacts DecimalString DecimalZ DecimalPos.
From stdpp Require Import base option list gmap strings fin_maps.

Local Open Scope string_scope.
Local Open Scope list_scope.

(** ** Failures

    Every failure of the source is a failed [assert] of
    [@protobuf-ts/runtime], which throws an [Error]. The constructors below
    name the assert site with the vocabulary of the specification:
    - [MalformedChain]: one of the asserts inside [composeTypeName];
    - [DuplicateName]: [assert(!names.has(name))] in the constructor;
    - [UnresolvedName]: the assert of [resolveTypeName], whose message
      quotes the normalized name;
    - [UnknownDescriptor]: the assert of [makeTypeName];
    - [InvalidArguments]: [assert(false)] in [TypeNameLookup.from]. *)
Inductive Failure : Type :=
| MalformedChain
| DuplicateName
| UnresolvedName (typeName : string)
| UnknownDescriptor
| InvalidArguments.

Inductive result (A : Type) : Type :=
| Ok (a : A)
| Err (e : Failure).
Arguments Ok {A} a.
Arguments Err {A} e.

#[global] Instance result_ret : MRet result := fun A a => Ok a.
#[global] Instance result_bind : MBind result :=
  fun A B f m => match m with Ok a => f a | Err e => Err e end.

(** [assert(condition)]: continue when the condition holds, throw otherwise. *)
Definition assert (condition : bool) (e : Failure) : result unit :=
  if condition then Ok tt else Err e.

(** ** Descriptors *)

(** The variants of [AnyDescriptorProto]. *)
Inductive DescriptorKind : Type :=
| KFile | KMessage | KEnum | KService | KField | KOneof | KMethod.

(** A descriptor object. [oid] stands for the identity of the JavaScript
    object: a [Map] keyed by descriptors compares keys by identity, so two
    descriptors with the same contents and different [oid] are different
    keys. [name] and [package] are the optional proto2 fields the source
    reads ([package] is only read on a file descriptor). *)
Record AnyDescriptorProto : Type := mkDescriptor {
  oid : nat;
  kind : DescriptorKind;
  name : option string;
  package : option string
}.

#[global] Instance DescriptorKind_eq_dec : EqDecision DescriptorKind.
Proof. solve_decision. Defined.

Definition kind_code (k : DescriptorKind) : nat :=
  match k with
  | KFile => 0 | KMessage => 1 | KEnum => 2 | KService => 3
  | KField => 4 | KOneof => 5 | KMethod => 6
  end.

Definition kind_of_code (n : nat) : DescriptorKind :=
  match n with
  | 0 => KFile | 1 => KMessage | 2 => KEnum | 3 => KService
  | 4 => KField | 5 => KOneof | _ => KMethod
  end.

#[global] Instance DescriptorKind_countable : Countable DescriptorKind.
Proof. by apply (inj_countable' kind_code kind_of_code); intros []. Defined.

#[global] Instance AnyDescriptorProto_eq_dec : EqDecision AnyDescriptorProto.
Proof. solve_decision. Defined.

#[global] Instance AnyDescriptorProto_countable : Countable AnyDescriptorProto.
Proof.
  apply (inj_countable'
           (fun d => (oid d, kind d, name d, package d))
           (fun t => match t with (i, k, n, p) => mkDescriptor i k n p end)).
  by intros [].
Defined.

(** Modelled from the spec: [FileDescriptorProto.is] of
    google/protobuf/descriptor, the type guard of the File variant. The
    argument is optional because the source applies the guard to the result
    of [Array.prototype.shift], which is [undefined] on an empty array. *)
Definition FileDescriptorProto_is (arg : option AnyDescriptorProto) : bool :=
  match arg with
  | Some d => match kind d with KFile => true | _ => false end
  | None => false
  end.

(** Modelled from the spec: [isAnyTypeDescriptorProto] of descriptor-info,
    the predicate of the nameable variants: Message, Enum and Service. *)
Definition isAnyTypeDescriptorProto (arg : option AnyDescriptorProto) : bool :=
  match arg with
  | Some d =>
      match kind d with
      | KMessage | KEnum | KService => true
      | _ => false
      end
  | None => false
  end.

(** ** Strings and arrays of the JavaScript runtime *)

(** [s.startsWith(searchString)]. *)
Definition startsWith (s searchString : string) : bool :=
  String.prefix searchString s.

(** [s.substring(start)]: the characters from index [start] to the end. *)
Definition substring_from (start : nat) (s : string) : string :=
  String.substring start (String.length s - start) s.

(** [parts.join(sep)] on an array of strings. *)
Definition join (sep : string) (parts : list string) : string :=
  String.concat sep parts.

(** [a.shift()]: the removed first element ([undefined] on an empty array)
    and the array that is left. *)
Definition shift {A : Type} (a : list A) : option A * list A :=
  match a with
  | [] => (None, [])
  | x :: rest => (Some x, rest)
  end.

(** [a.pop()]: the removed last element ([undefined] on an empty array)
    and the array that is left. *)
Definition pop {A : Type} (a : list A) : option A * list A :=
  (last a, removelast a).

(** ** The lookup operations *)

(** [normalizeTypeName]: a method that does not read the instance. *)
Definition normalizeTypeName (typeName : string) : string :=
  if startsWith typeName "." then substring_from 1 typeName else typeName.


(** The segments [composeTypeName] pushes onto [parts] for the elements
    below the file: the loop [for (const item of [...mid, last])], which
    asserts that each [item.name] is defined. *)
Fixpoint push_names (items : list AnyDescriptorProto) (parts : list string)
  : result (list string) :=
  match items with
  | [] => Ok parts
  | item :: rest =>
      let part := name item in
      match part with
      | None => Err MalformedChain          (* assert(part !== undefined) *)
      | Some part => push_names rest (parts ++ [part])
      end
  end.

(** The part of [composeTypeName] after the two asserts on [first] and
    [last]: the package segment, the name segments and the join. *)
Definition compose_parts (first : AnyDescriptorProto)
  (items : list AnyDescriptorProto) : result string :=
  let parts := [] in
  let pkg := package first in
  let parts :=
    match pkg with
    | Some pkg => if negb (String.eqb pkg "") then parts ++ [pkg] else parts
    | None => parts
    end in
  parts ← push_names items parts;
  Ok (join "." parts).

(** [composeTypeName(descriptors)]. [mid] is the copy made by
    [descriptors.concat()], from which [shift] and [pop] take [first] and
    [last]. *)
Definition composeTypeName (descriptors : list AnyDescriptorProto)
  : result string :=
  _ ← assert (0 <? List.length descriptors)%nat MalformedChain;
  let mid := descriptors in
  let '(first, mid) := shift mid in
  let '(last, mid) := pop mid in
  _ ← assert (FileDescriptorProto_is first) MalformedChain;
  _ ← assert (isAnyTypeDescriptorProto last) MalformedChain;
  match first, last with
  | Some first, Some last => compose_parts first (mid ++ [last])
  | _, _ => Err MalformedChain
  end.

(** ** The name table *)

(** An element of the constructor's [data] array. *)
Record Entry : Type := mkEntry {
  descriptor : AnyDescriptorProto;
  ancestors : list AnyDescriptorProto
}.

(** The two private fields of a [TypeNameLookup]. *)
Record TypeNameLookup : Type := mkLookup {
  _names : gmap string AnyDescriptorProto;
  _reverse : gmap AnyDescriptorProto string
}.

(** The loop of the constructor over [data], on the two maps under
    construction. *)
Fixpoint constructor_loop (data : list Entry)
  (names : gmap string AnyDescriptorProto)
  (reverse : gmap AnyDescriptorProto string)
  : result (gmap string AnyDescriptorProto * gmap AnyDescriptorProto string) :=
  match data with
  | [] => Ok (names, reverse)
  | e :: rest =>
      name ← composeTypeName (ancestors e ++ [descriptor e]);
      _ ← assert (negb (bool_decide (is_Some (names !! name)))) DuplicateName;
      constructor_loop rest
        (<[name := descriptor e]> names) (<[descriptor e := name]> reverse)
  end.

(** [new TypeNameLookup(data)]. *)
Definition TypeNameLookup_new (data : list Entry) : result TypeNameLookup :=
  maps ← constructor_loop data ∅ ∅;
  Ok (mkLookup maps.1 maps.2).

(** [resolveTypeName]. *)
Definition resolveTypeName (this : TypeNameLookup) (typeName : string)
  : result AnyDescriptorProto :=
  let typeName := normalizeTypeName typeName in
  let d := _names this !! typeName in
  match d with
  | Some d => Ok d
  | None => Err (UnresolvedName typeName)
  end.

(** [peekTypeName]: [None] is [undefined]. *)
Definition peekTypeName (this : TypeNameLookup) (typeName : string)
  : option AnyDescriptorProto :=
  let typeName := normalizeTypeName typeName in
  _names this !! typeName.

(** [makeTypeName]. *)
Definition makeTypeName (this : TypeNameLookup) (descriptor : AnyDescriptorProto)
  : result string :=
  let n := _reverse this !! descriptor in
  match n with
  | Some n => Ok n
  | None => Err UnknownDescriptor
  end.

(** ** Acquisition of the ancestor chains: [TypeNameLookup.from] *)

(** Modelled from the spec: [DescriptorParentFn] of descriptor-tree, the
    function that gives the parent of a descriptor, or [undefined]. It is a
    function of the descriptor alone: asked twice about one descriptor, it
    gives one answer. *)
Definition DescriptorParentFn : Type :=
  AnyDescriptorProto → option AnyDescriptorProto.

(** Modelled from the spec: [IDescriptorTree] of descriptor-tree, reduced
    to the two members [from] uses. [visitTypes] lists the type descriptors
    with which the tree calls the visitor, in the order of the calls. *)
Record IDescriptorTree : Type := mkTree {
  visitTypes : list AnyDescriptorProto;
  ancestorsOf : AnyDescriptorProto → list AnyDescriptorProto
}.

(** The loop [while (p) { ancestors.unshift(p); p = b(descriptor); }].
    [fuel] bounds the number of iterations; [None] means that the loop is
    still running when the fuel is spent. *)
Fixpoint climb (fuel : nat) (b : DescriptorParentFn)
  (descriptor : AnyDescriptorProto) (p : option AnyDescriptorProto)
  (ancestors : list AnyDescriptorProto) : option (list AnyDescriptorProto) :=
  match p with
  | None => Some ancestors
  | Some p' =>
      match fuel with
      | O => None
      | S fuel' => climb fuel' b descriptor (b descriptor) (p' :: ancestors)
      end
  end.

(** The loop [for (let descriptor of a)] of the first branch of [from],
    pushing onto [data]. Every inner climb may take [fuel] iterations. *)
Fixpoint collect (fuel : nat) (b : DescriptorParentFn)
  (a : list AnyDescriptorProto) (data : list Entry) : option (list Entry) :=
  match a with
  | [] => Some data
  | descriptor :: rest =>
      if negb (isAnyTypeDescriptorProto (Some descriptor))
      then collect fuel b rest data                      (* continue *)
      else
        let ancestors := [] in
        let p := b descriptor in
        match climb fuel b descriptor p ancestors with
        | None => None
        | Some ancestors =>
            collect fuel b rest (data ++ [mkEntry descriptor ancestors])
        end
  end.

(** The callback given to [a.visitTypes] in the second branch of [from],
    run on every visited descriptor. *)
Definition visit (a : IDescriptorTree) : list Entry :=
  map (fun descriptor => mkEntry descriptor (ancestorsOf a descriptor))
      (visitTypes a).

(** [TypeNameLookup.from(a, b)], with the signature of the implementation:
    [a] is an array or a tree and [b] is optional. [None] means that the
    call is still running when the fuel is spent. *)
Definition from (fuel : nat)
  (a : list AnyDescriptorProto + IDescriptorTree)
  (b : option DescriptorParentFn) : option (result TypeNameLookup) :=
  match a, b with
  | inl a, Some b =>
      match collect fuel b a [] with
      | None => None
      | Some data => Some (TypeNameLookup_new data)
      end
  | inr a, None => Some (TypeNameLookup_new (visit a))
  | _, _ => Some (Err InvalidArguments)                  (* assert(false) *)
  end.

(** *** The climb as the specification words it

    "Starting from the descriptor's immediate parent, follow [parentOf]
    again on that parent (not on the original descriptor) until it returns
    none, prepending each visited ancestor." *)
Fixpoint spec_climb (fuel : nat) (parentOf : DescriptorParentFn)
  (p : option AnyDescriptorProto) (ancestors : list AnyDescriptorProto)
  : option (list AnyDescriptorProto) :=
  match p with
  | None => Some ancestors
  | Some p' =>
      match fuel with
      | O => None
      | S fuel' => spec_climb fuel' parentOf (parentOf p') (p' :: ancestors)
      end
  end.

Definition spec_chain (fuel : nat) (parentOf : DescriptorParentFn)
  (descriptor : AnyDescriptorProto) : option (list AnyDescriptorProto) :=
  spec_climb fuel parentOf (parentOf descriptor) [].

(** The pairs the specification asks of the flat-list shape: the nameable
    descriptors of the list, each with its chain. *)
Fixpoint spec_collect (fuel : nat) (parentOf : DescriptorParentFn)
  (a : list AnyDescriptorProto) : option (list Entry) :=
  match a with
  | [] => Some []
  | descriptor :: rest =>
      if isAnyTypeDescriptorProto (Some descriptor)
      then
        chain ← spec_chain fuel parentOf descriptor;
        data ← spec_collect fuel parentOf rest;
        Some (mkEntry descriptor chain :: data)
      else spec_collect fuel parentOf rest
  end.

(** The [n]-th ancestor of a descriptor: [n] applications of [parentOf]. *)
Fixpoint nth_parent (parentOf : DescriptorParentFn) (n : nat)
  (d : AnyDescriptorProto) : option AnyDescriptorProto :=
  match n with
  | O => Some d
  | S n' => nth_parent parentOf n' d ≫= parentOf
  end.

(** Following [parentOf] from [d] reaches none after finitely many steps. *)
Definition reaches_root (parentOf : DescriptorParentFn)
  (d : AnyDescriptorProto) : Prop :=
  ∃ n, nth_parent parentOf n d = None.

(** Following [parentOf] from [d] never reaches none: [d] sits on or below
    a parent cycle. *)
Definition on_cycle (parentOf : DescriptorParentFn)
  (d : AnyDescriptorProto) : Prop :=
  ∀ n, is_Some (nth_parent parentOf n d).

(** ** [composeTypeName] on a store of arrays

    To state that [composeTypeName] leaves its argument as it found it, the
    arrays live in a store and the array methods update the store in
    place. A failed assert keeps the store of the moment of the throw. *)
Abbreviation Heap := (gmap nat (list AnyDescriptorProto)).

Definition ST (A : Type) : Type := Heap → result A * Heap.

#[global] Instance ST_ret : MRet ST := fun A a h => (Ok a, h).
#[global] Instance ST_bind : MBind ST :=
  fun A B k m h =>
    match m h with
    | (Ok a, h') => k a h'
    | (Err e, h') => (Err e, h')
    end.

(** A pure, possibly failing step. *)
Definition st_lift {A : Type} (r : result A) : ST A := fun h => (r, h).

(** The contents of the array at [l]. *)
Definition heap_read (l : nat) : ST (list AnyDescriptorProto) :=
  fun h => (Ok (default [] (h !! l)), h).

(** [l.concat()]: a new array with the elements of [l]. *)
Definition heap_concat (l : nat) : ST nat :=
  fun h =>
    let l' := fresh (dom h) in
    (Ok l', <[l' := default [] (h !! l)]> h).

(** [l.shift()], in place. *)
Definition heap_shift (l : nat) : ST (option AnyDescriptorProto) :=
  fun h =>
    let '(x, rest) := shift (default [] (h !! l)) in
    (Ok x, <[l := rest]> h).

(** [l.pop()], in place. *)
Definition heap_pop (l : nat) : ST (option AnyDescriptorProto) :=
  fun h =>
    let '(x, rest) := pop (default [] (h !! l)) in
    (Ok x, <[l := rest]> h).

(** [composeTypeName] on the array stored at [descriptors]. *)
Definition composeTypeName_heap (descriptors : nat) : ST string :=
  ds ← heap_read descriptors;
  _ ← st_lift (assert (0 <? List.length ds)%nat MalformedChain);
  mid ← heap_concat descriptors;
  first ← heap_shift mid;
  last ← heap_pop mid;
  _ ← st_lift (assert (FileDescriptorProto_is first) MalformedChain);
  _ ← st_lift (assert (isAnyTypeDescriptorProto last) MalformedChain);
  match first, last with
  | Some first, Some last =>
      items ← heap_read mid;
      st_lift (compose_parts first (items ++ [last]))
  | _, _ => st_lift (Err MalformedChain)
  end.

(** ** Descriptors used in the examples *)

Definition FileA : AnyDescriptorProto :=
  mkDescriptor 0 KFile (Some "a.proto") (Some "pkg").
Definition FileB : AnyDescriptorProto :=
  mkDescriptor 1 KFile (Some "b.proto") (Some "pkg").
Definition Outer : AnyDescriptorProto :=
  mkDescriptor 2 KMessage (Some "Outer") None.
Definition Inner : AnyDescriptorProto :=
  mkDescriptor 3 KMessage (Some "Inner") None.
Definition DupA : AnyDescriptorProto :=
  mkDescriptor 4 KMessage (Some "Dup") None.
Definition DupB : AnyDescriptorProto :=
  mkDescriptor 5 KMessage (Some "Dup") None.
(** A file without package and a message whose name begins with a period. *)
Definition FileNoPackage : AnyDescriptorProto :=
  mkDescriptor 6 KFile (Some "c.proto") (Some "").
Definition DotX : AnyDescriptorProto :=
  mkDescriptor 7 KMessage (Some ".X") None.

(** [parentOf(Outer) = FileA], [parentOf(Inner) = Outer], none otherwise. *)
Definition parentOf_example : DescriptorParentFn :=
  fun d =>
    if decide (d = Inner) then Some Outer
    else if decide (d = Outer) then Some FileA
    else None.

(** A misbehaving descriptor source: [Outer] and [Inner] are each other's
    parent. *)
Definition parentOf_cycle : DescriptorParentFn :=
  fun d =>
    if decide (d = Inner) then Some Outer
    else if decide (d = Outer) then Some Inner
    else None.

(** The tree of file [a]. *)
Definition tree_a : IDescriptorTree :=
  mkTree [Outer; Inner]
    (fun d =>
       if decide (d = Inner) then [FileA; Outer]
       else if decide (d = Outer) then [FileA]
       else []).

(** ** Vocabulary of the statements *)

(** The first segment the package contributes: none when the package is
    absent or empty. *)
Definition package_segment (first : AnyDescriptorProto) : list string :=
  match package first with
  | Some pkg => if String.eqb pkg "" then [] else [pkg]
  | None => []
  end.

(** The conditions under which the specification calls a sequence
    (ancestors plus target) malformed. *)
Definition malformed (descriptors : list AnyDescriptorProto) : Prop :=
  descriptors = []
  ∨ FileDescriptorProto_is (head descriptors) = false
  ∨ isAnyTypeDescriptorProto (last descriptors) = false
  ∨ ∃ d, d ∈ tail descriptors ∧ name d = None.

(** Whether the join of the segments begins with a period, read off the
    segments: the first segment begins with one, or it is empty and another
    segment follows it. *)
Definition leading_period (segments : list string) : bool :=
  match segments with
  | [] => false
  | [s] => startsWith s "."
  | s :: _ :: _ => String.eqb s "" || startsWith s "."
  end.

(** The name the constructor composes for an entry. *)
Definition entry_name (e : Entry) : result string :=
  composeTypeName (ancestors e ++ [descriptor e]).

(** Every entry of [data] composes, to the names [ns] in order. *)
Definition composes (data : list Entry) (ns : list string) : Prop :=
  Forall2 (fun e n => entry_name e = Ok n) data ns.

(** The entries of the nameable descriptors of a list, each with an empty
    chain. *)
Definition root_entries (a : list AnyDescriptorProto) : list Entry :=
  map (fun d => mkEntry d [])
      (filter (fun d => isAnyTypeDescriptorProto (Some d) = true) a).

(** The table of the message [Outer] of file [a]. *)
Definition table_a : TypeNameLookup :=
  mkLookup {["pkg.Outer" := Outer]} {[Outer := "pkg.Outer"]}.

(** The entries of [Outer] and [Inner] of file [a], and their table. *)
Definition data_a : list Entry :=
  [mkEntry Outer [FileA]; mkEntry Inner [FileA; Outer]].

Definition this_a : TypeNameLookup :=
  mkLookup
    (<["pkg.Outer.Inner" := Inner]> (<["pkg.Outer" := Outer]> ∅))
    (<[Inner := "pkg.Outer.Inner"]> (<[Outer := "pkg.Outer"]> ∅)).

(** ** The JSON form of [google.protobuf.Duration]

    The two methods of [Duration$Type] (duration.ts, generated for the
    conformance tests): [internalJsonWrite] and [internalJsonRead]. *)

(** The message [Duration]: [seconds] is a [bigint], [nanos] the number of
    an [int32] field, an integer. *)
Record Duration : Type := mkDuration {
  seconds : Z;
  nanos : Z
}.

(** What the two methods throw: the three [Error]s of the source, by their
    message, the [RangeError] of [String.prototype.repeat] on a negative
    count, and whatever [PbLong.from] throws. *)
Inductive DurationError : Type :=
| ValueOutOfRange        (* "Duration value out of range." *)
| ExpectedString         (* "Unable to parse Duration from JSON ... Expected string." *)
| InvalidFormat          (* "... Invalid format." *)
| ParsedValueOutOfRange  (* "... Value out of range." *)
| RangeError
| LongError.

(** The completion of a call: a returned value or a thrown error. *)
Inductive completion (A : Type) : Type :=
| Return (a : A)
| Throw (e : DurationError).
Arguments Return {A} a.
Arguments Throw {A} e.

#[global] Instance completion_ret : MRet completion := fun A a => Return a.
#[global] Instance completion_bind : MBind completion :=
  fun A B f m => match m with Return a => f a | Throw e => Throw e end.

(** A [JsonValue]; of the values that are not strings only the type
    matters here. *)
Inductive JsonValue : Type :=
| JsonString (s : string)
| JsonNumber
| JsonBoolean
| JsonNull
| JsonObject
| JsonArray.

(** The class [PbLong] of [@protobuf-ts/runtime] is not among the sources:
    it is a parameter, with the two forms of [PbLong.from] the methods
    call, [toNumber] and [toBigInt]. The number [toNumber] returns is
    integral and given as the integer it equals. *)
Record PbLongImpl : Type := mkPbLongImpl {
  PbLong : Type;
  PbLong_from_bigint : Z → completion PbLong;
  PbLong_from_string : string → completion PbLong;
  toNumber : PbLong → Z;
  toBigInt : PbLong → Z
}.

(** [z.toString()] on a [bigint], and on a number that is an integer below
    [10^21] in absolute value: the decimal digits, after a minus sign for a
    negative integer. *)
Definition integer_toString (z : Z) : string :=
  NilZero.string_of_int (Z.to_int z).

(** [s.repeat(count)]: a [RangeError] on a negative count. *)
Definition repeat_string (s : string) (count : Z) : completion string :=
  if (count <? 0)%Z then Throw RangeError
  else Return (String.concat "" (List.repeat s (Z.to_nat count))).

(** [s.substring(start, end)] for [start <= end]. *)
Definition substring_between (start stop : nat) (s : string) : string :=
  String.substring start (stop - start) s.

(** The class [[0-9]] of the regular expression. *)
Definition is_digit (c : ascii) : bool :=
  match c with
  | "0" | "1" | "2" | "3" | "4" | "5" | "6" | "7" | "8" | "9" => true
  | _ => false
  end%char.

(** The longest prefix of digits of a string, and what follows it. *)
Fixpoint take_digits (s : string) : string * string :=
  match s with
  | EmptyString => (EmptyString, EmptyString)
  | String c rest =>
      if is_digit c
      then let '(digits, rest') := take_digits rest in (String c digits, rest')
      else (EmptyString, s)
  end.

(** The group [(-?)] at the start of a string, and what follows it. *)
Definition take_sign (s : string) : string * string :=
  match s with
  | String "-" rest => ("-", rest)
  | _ => ("", s)
  end.

(** [json.match(/^(-?)([0-9]+)(?:\.([0-9]+))?s/)]: the three groups, the
    third [undefined] when the fraction is absent; [None] is [null]. Each
    repetition can only match the longest run of digits, what follows a
    shorter run being a digit, so that the match needs no backtracking. *)
Definition duration_match (json : string)
  : option (string * string * option string) :=
  let '(sign, rest) := take_sign json in
  let '(secs, rest) := take_digits rest in
  if String.eqb secs "" then None
  else
    match rest with
    | String "s" _ => Some (sign, secs, None)
    | String "." rest =>
        let '(nanos, rest) := take_digits rest in
        if String.eqb nanos "" then None
        else
          match rest with
          | String "s" _ => Some (sign, secs, Some nanos)
          | _ => None
          end
    | _ => None
    end.

(** [parseInt(s)] on a string without leading white space and without the
    prefix [0x]: an optional sign, then the longest run of decimal digits;
    [None] is [NaN], for an empty run. *)
Definition parseInt (s : string) : option Z :=
  let '(negative, rest) :=
    match s with
    | String "-" rest => (true, rest)
    | String "+" rest => (false, rest)
    | _ => (false, s)
    end in
  let '(digits, _) := take_digits rest in
  match NilZero.uint_of_string digits with
  | Some d => Some (if negative then - Z.of_uint d else Z.of_uint d)%Z
  | None => None
  end.

(** [internalJsonWrite(message, options)]; the options are not used. *)
Definition internalJsonWrite (L : PbLongImpl) (message : Duration)
  : completion string :=
  l ← PbLong_from_bigint L (seconds message);
  let s := toNumber L l in
  if ((s >? 315576000000) || (s <? -315576000000))%Z
  then Throw ValueOutOfRange
  else
    let text := integer_toString (seconds message) in
    let text :=
      if ((s =? 0) && (nanos message <? 0))%Z then "-" +:+ text else text in
    text ←
      (if negb (nanos message =? 0)%Z
       then
         let nanosStr := integer_toString (Z.abs (nanos message)) in
         pad ← repeat_string "0" (9 - Z.of_nat (String.length nanosStr));
         let nanosStr := pad +:+ nanosStr in
         let nanosStr :=
           if String.eqb (substring_from 3 nanosStr) "000000"
           then substring_between 0 3 nanosStr
           else if String.eqb (substring_from 6 nanosStr) "000"
                then substring_between 0 6 nanosStr
                else nanosStr in
         Return (text +:+ "." +:+ nanosStr)
       else Return text);
    Return (text +:+ "s").

(** [if (!target) target = this.create()]: the object the method fills. *)
Definition target_or_create (create : Duration) (target : option Duration)
  : Duration :=
  match target with
  | Some t => t
  | None => create
  end.

(** How a call of [internalJsonRead] ends: it returns the target object,
    or it throws, and then the target object the caller gave, if any, is
    left in the given state. *)
Inductive ReadResult : Type :=
| ReadReturn (target : Duration)
| ReadThrow (e : DurationError) (given : option Duration).

(** [internalJsonRead(json, options, target)]; the options are not used.
    [create] is the message [this.create()] returns. The assignments to
    [target.seconds] and [target.nanos] update the object the caller gave.
    [nanosGroup] is the third group of the match, named [nanos] in the
    source. [parseInt] is applied to a sign and nine digits and is a
    number. *)
Definition internalJsonRead (L : PbLongImpl) (create : Duration)
  (json : JsonValue) (target : option Duration) : ReadResult :=
  match json with
  | JsonString json =>
      match duration_match json with
      | None => ReadThrow InvalidFormat target
      | Some (sign, secs, nanosGroup) =>
          let given := target in
          let target := target_or_create create target in
          match PbLong_from_string L (sign +:+ secs) with
          | Throw e => ReadThrow e given
          | Return longSeconds =>
              if ((toNumber L longSeconds >? 315576000000)
                  || (toNumber L longSeconds <? -315576000000))%Z
              then ReadThrow ParsedValueOutOfRange given
              else
                let target :=
                  mkDuration (toBigInt L longSeconds) (nanos target) in
                match nanosGroup with
                | Some nanosGroup =>
                    match repeat_string "0" (9 - Z.of_nat (String.length nanosGroup)) with
                    | Throw e =>
                        ReadThrow e
                          (match given with Some _ => Some target | None => None end)
                    | Return pad =>
                        let nanosStr := sign +:+ nanosGroup +:+ pad in
                        ReadReturn
                          (mkDuration (seconds target)
                             (default 0%Z (parseInt nanosStr)))
                    end
                | None => ReadReturn target
                end
          end
      end
  | _ => ReadThrow ExpectedString target
  end.

(** The value of a decimal string with an optional minus sign. *)
Definition decimal_value (s : string) : option Z :=
  Z.of_int <$> NilZero.int_of_string s.

(** [PbLong] is exact on the safe integers: [PbLong.from] accepts a
    [bigint], or a decimal string, of absolute value below [2^53], and the
    long it returns has that value as its number and as its [bigint]. *)
Definition PbLong_exact (L : PbLongImpl) : Prop :=
  (∀ z, (- 2 ^ 53 < z < 2 ^ 53)%Z →
        ∃ l, PbLong_from_bigint L z = Return l
             ∧ toNumber L l = z ∧ toBigInt L l = z)
  ∧ (∀ s z, decimal_value s = Some z → (- 2 ^ 53 < z < 2 ^ 53)%Z →
        ∃ l, PbLong_from_string L s = Return l
             ∧ toNumber L l = z ∧ toBigInt L l = z).

(** A [PbLong] that holds any integer. *)
Definition integer_long : PbLongImpl :=
  mkPbLongImpl Z
    (fun z => Return z)
    (fun s => match decimal_value s with
              | Some z => Return z
              | None => Throw LongError
              end)
    (fun l => l) (fun l => l).

Definition zero_duration : Duration := mkDuration 0 0.


(** Every character of the string is a digit. *)
Fixpoint all_digits (s : string) : bool :=
  match s with
  | EmptyString => true
  | String c rest => is_digit c && all_digits rest
  end.

(** The string does not begin with a digit. *)
Definition no_digit_ahead (s : string) : bool :=
  match s with
  | EmptyString => true
  | String c _ => negb (is_digit c)
  end.

(** A string of [n] zeros. *)
Definition zeros (n : nat) : string :=
  String.concat "" (List.repeat "0" n).

(** The fraction [internalJsonWrite] keeps of the nine digits of the
    nanoseconds: three or six digits when the others are zeros. *)
Definition trim_zeros (nanosStr : string) : string :=
  if String.eqb (substring_from 3 nanosStr) "000000"
  then substring_between 0 3 nanosStr
  else if String.eqb (substring_from 6 nanosStr) "000"
       then substring_between 0 6 nanosStr
       else nanosStr.

(** The text [internalJsonWrite] writes for the seconds. *)
Definition seconds_text (message : Duration) : string :=
  (if ((seconds message =? 0) && (nanos message <? 0))%Z then "-" else "")
  +:+ integer_toString (seconds message).

(** The range of the seconds of a duration. *)
Definition seconds_in_range (z : Z) : Prop :=
  (-315576000000 ≤ z ≤ 315576000000)%Z.

(** The nanoseconds, when they are not zero, have the sign of the seconds,
    when these are not zero. *)
Definition signs_agree (message : Duration) : Prop :=
  ((0 < seconds message)%Z → (0 ≤ nanos message)%Z)
  ∧ ((seconds message < 0)%Z → (nanos message ≤ 0)%Z).

(** The number a string of digits denotes; zero for the empty string. *)
Definition digits_value (s : string) : option Z :=
  Z.of_uint <$> NilEmpty.uint_of_string s.

(** The strings the expression matches: an optional minus sign, digits, an
    optional fraction of a period and digits, the letter s, and anything. *)
Definition duration_text (sign secs : string) (fraction : option string)
  (rest : string) : string :=
  String.append sign
    (String.append secs
       match fraction with
       | None => String "s" rest
       | Some f => String "." (String.append f (String "s" rest))
       end).

Definition duration_groups (sign secs : string) (fraction : option string)
  : Prop :=
  (sign = "" ∨ sign = "-")
  ∧ all_digits secs = true ∧ secs ≠ ""
  ∧ match fraction with
    | None => True
    | Some f => all_digits f = true ∧ f ≠ ""
    end.

(** The sign a group [(-?)] stands for. *)
Definition sign_factor (sign : string) : Z :=
  if String.eqb sign "-" then (-1)%Z else 1%Z.

(** The state a throw after the assignment of the seconds leaves the given
    target in. *)
Definition given_with_seconds (target : option Duration) (z : Z)
  : option Duration :=
  match target with
  | Some t => Some (mkDuration z (nanos t))
  | None => None
  end.


(** * Properties *)

(** ** Strings *)

Lemma substring_whole (s : string) : String.substring 0 (String.length s) s = s.
Proof. induction s as [|c s IH]; simpl; [reflexivity | by rewrite IH]. Qed.

Lemma prefix_empty (s : string) : String.prefix "" s = true.
Proof. by destruct s. Qed.

Lemma startsWith_dot_cons (c : ascii) (s : string) :
  startsWith (String c s) "." = bool_decide (c = "."%char).
Proof.
  unfold startsWith; cbn [String.prefix].
  destruct (ascii_dec "." c) as [<-|Hne].
  - rewrite bool_decide_eq_true_2 by reflexivity. apply prefix_empty.
  - rewrite bool_decide_eq_false_2; [reflexivity | congruence].
Qed.

Lemma normalizeTypeName_dot (s : string) :
  normalizeTypeName (String "." s) = s.
Proof.
  unfold normalizeTypeName. rewrite startsWith_dot_cons.
  rewrite bool_decide_eq_true_2 by reflexivity.
  unfold substring_from. simpl. rewrite Nat.sub_0_r. apply substring_whole.
Qed.

Lemma normalizeTypeName_plain (s : string) :
  startsWith s "." = false → normalizeTypeName s = s.
Proof. unfold normalizeTypeName. by intros ->. Qed.

Lemma string_cons_neq (c : ascii) (s : string) : s ≠ String c s.
Proof.
  intros H. apply (f_equal String.length) in H. simpl in H. lia.
Qed.

Lemma normalizeTypeName_fixed_iff (s : string) :
  normalizeTypeName s = s ↔ startsWith s "." = false.
Proof.
  split; [|apply normalizeTypeName_plain].
  destruct s as [|c s]; [reflexivity|].
  rewrite startsWith_dot_cons. intros H.
  apply bool_decide_eq_false_2. intros ->.
  rewrite normalizeTypeName_dot in H. by apply string_cons_neq in H.
Qed.

Lemma startsWith_two_dots (c : ascii) (s : string) :
  startsWith (String c s) ".." = bool_decide (c = "."%char) && startsWith s ".".
Proof.
  unfold startsWith; cbn [String.prefix].
  destruct (ascii_dec "." c) as [<-|Hne].
  - rewrite bool_decide_eq_true_2 by reflexivity. reflexivity.
  - rewrite bool_decide_eq_false_2; [reflexivity | congruence].
Qed.

(** ** normalizeTypeName *)

(** C4 (as amended). [normalizeTypeName] returns a string on every string:
    its argument unchanged, or its argument without the one leading period.
    Applying it twice gives the same as applying it once exactly on the
    strings that do not begin with two periods; only one period is
    stripped per call. *)
Theorem normalizeTypeName_idempotent_iff (x : string) :
  (normalizeTypeName x = x ∨ x = String "." (normalizeTypeName x))
  ∧ (normalizeTypeName (normalizeTypeName x) = normalizeTypeName x
     ↔ startsWith x ".." = false).
Proof.
  destruct x as [|c x].
  { split; [by left | done]. }
  destruct (decide (c = "."%char)) as [->|Hc].
  - rewrite normalizeTypeName_dot, startsWith_two_dots.
    rewrite bool_decide_eq_true_2 by reflexivity. simpl.
    split; [by right | apply normalizeTypeName_fixed_iff].
  - assert (Hs : startsWith (String c x) "." = false).
    { rewrite startsWith_dot_cons. by apply bool_decide_eq_false_2. }
    rewrite !(normalizeTypeName_plain _ Hs), startsWith_two_dots.
    rewrite bool_decide_eq_false_2 by done. simpl.
    split; [by left | done].
Qed.

(** C4, counterexample. On a string with two leading periods the second
    application strips one more period: the claim's equation fails. *)
Lemma normalizeTypeName_not_idempotent :
  normalizeTypeName "..a" = ".a"
  ∧ normalizeTypeName (normalizeTypeName "..a") = "a"
  ∧ normalizeTypeName (normalizeTypeName "..a") ≠ normalizeTypeName "..a".
Proof. repeat split; vm_compute; congruence. Qed.

(** ** resolveTypeName and peekTypeName *)

(** C5. On any table and any name, [peekTypeName] returns [undefined]
    exactly when [resolveTypeName] fails, the failure being the unresolved
    name (of the normalized name), and [peekTypeName] returns a descriptor
    exactly when [resolveTypeName] returns that descriptor. *)
Theorem peekTypeName_resolveTypeName (this : TypeNameLookup) (n : string) :
  (peekTypeName this n = None
   ↔ resolveTypeName this n = Err (UnresolvedName (normalizeTypeName n)))
  ∧ (peekTypeName this n = None ↔ ∃ e, resolveTypeName this n = Err e)
  ∧ (∀ d, peekTypeName this n = Some d ↔ resolveTypeName this n = Ok d).
Proof.
  unfold peekTypeName, resolveTypeName.
  destruct (_names this !! normalizeTypeName n) as [d|].
  - repeat split; try congruence.
    intros [e He]; congruence.
  - repeat split; try congruence. by exists (UnresolvedName (normalizeTypeName n)).
Qed.

(** C9 (as amended). For every name [x] that does not itself begin with a
    period, in the table or not, [resolveTypeName] gives the same result on
    ['.' + x] and on [x]; when [x] is a key of the forward map, both return
    its descriptor. *)
Theorem resolveTypeName_leading_period
  (this : TypeNameLookup) (x : string) :
  startsWith x "." = false →
  resolveTypeName this (String "." x) = resolveTypeName this x
  ∧ (∀ d, _names this !! x = Some d →
          resolveTypeName this (String "." x) = Ok d
          ∧ resolveTypeName this x = Ok d).
Proof.
  intros Hx. unfold resolveTypeName.
  rewrite normalizeTypeName_dot, (normalizeTypeName_plain _ Hx).
  split; [reflexivity|]. by intros d ->.
Qed.

(** ** composeTypeName *)

Lemma push_names_cases (items : list AnyDescriptorProto) (parts : list string) :
  (∃ names, map name items = map Some names
            ∧ push_names items parts = Ok (parts ++ names))
  ∨ ((∃ d, d ∈ items ∧ name d = None)
     ∧ push_names items parts = Err MalformedChain).
Proof.
  revert parts. induction items as [|item items IH]; intros parts.
  - left. exists []. split; [reflexivity|]. simpl. by rewrite app_nil_r.
  - simpl. destruct (name item) as [n|] eqn:Hn.
    + destruct (IH (parts ++ [n])) as [(names & Hm & Hp)|[(d & Hd & Hnone) Hp]].
      * left. exists (n :: names). split; [simpl; rewrite ?Hn; by rewrite Hm|].
        rewrite Hp. by rewrite <- app_assoc.
      * right. split; [|exact Hp]. exists d. split; [by right | exact Hnone].
    + right. split; [|reflexivity]. exists item. split; [by left | exact Hn].
Qed.

Lemma names_defined (items : list AnyDescriptorProto) (names : list string)
  (d : AnyDescriptorProto) :
  map name items = map Some names → d ∈ items → name d ≠ None.
Proof.
  revert names. induction items as [|item items IH]; intros names H Hd.
  - by apply elem_of_nil in Hd.
  - destruct names as [|n names]; [discriminate|].
    simpl in H. injection H as Hn Hrest.
    apply elem_of_cons in Hd as [->|Hd]; [congruence | by eapply IH].
Qed.

Lemma removelast_last {A : Type} (l : list A) (x : A) :
  last l = Some x → removelast l ++ [x] = l.
Proof.
  induction l as [|a l IH]; [discriminate|].
  destruct l as [|b l]; simpl.
  - intros [= ->]. reflexivity.
  - intros H. f_equal. by apply IH.
Qed.

Lemma last_is_Some {A : Type} (a : A) (l : list A) : is_Some (last (a :: l)).
Proof.
  revert a. induction l as [|b l IH]; intros a; [by eexists|].
  change (last (a :: b :: l)) with (last (b :: l)). apply IH.
Qed.

Lemma compose_parts_cases (first : AnyDescriptorProto)
  (items : list AnyDescriptorProto) :
  (∃ names, map name items = map Some names
            ∧ compose_parts first items
              = Ok (join "." (package_segment first ++ names)))
  ∨ ((∃ d, d ∈ items ∧ name d = None)
     ∧ compose_parts first items = Err MalformedChain).
Proof.
  unfold compose_parts.
  set (parts := match package first with
                | Some pkg => if negb (String.eqb pkg "") then [] ++ [pkg] else []
                | None => []
                end).
  assert (Hparts : parts = package_segment first).
  { unfold parts, package_segment.
    destruct (package first) as [pkg|]; [|reflexivity].
    by destruct (String.eqb pkg ""). }
  destruct (push_names_cases items parts) as [(names & Hm & Hp)|[Hex Hp]].
  - left. exists names. split; [exact Hm|]. rewrite Hp. simpl. by rewrite Hparts.
  - right. split; [exact Hex|]. by rewrite Hp.
Qed.

(** On a sequence of at least two elements, [first] is the head, [last]
    the last element and [[...mid, last]] the tail. *)
Lemma composeTypeName_cons (first : AnyDescriptorProto)
  (rest : list AnyDescriptorProto) :
  rest ≠ [] →
  composeTypeName (first :: rest) =
    (_ ← assert (FileDescriptorProto_is (Some first)) MalformedChain;
     _ ← assert (isAnyTypeDescriptorProto (last rest)) MalformedChain;
     compose_parts first rest).
Proof.
  intros Hrest. destruct rest as [|y r]; [done|].
  destruct (last_is_Some y r) as [l Hl].
  unfold composeTypeName, pop. cbn [List.length Nat.ltb Nat.leb assert shift mbind result_bind].
  rewrite Hl, (removelast_last _ _ Hl).
  destruct (FileDescriptorProto_is (Some first)); [|reflexivity].
  cbn [assert mbind result_bind].
  destruct (isAnyTypeDescriptorProto (Some l)); reflexivity.
Qed.

Lemma composeTypeName_singleton (d : AnyDescriptorProto) :
  composeTypeName [d] = Err MalformedChain.
Proof.
  unfold composeTypeName, pop; simpl.
  by destruct (kind d).
Qed.

Lemma file_not_nameable (d : AnyDescriptorProto) :
  FileDescriptorProto_is (Some d) = true →
  isAnyTypeDescriptorProto (Some d) = false.
Proof. unfold FileDescriptorProto_is, isAnyTypeDescriptorProto. by destruct (kind d). Qed.

(** What [composeTypeName] does on every sequence: either it fails with
    [MalformedChain] and the sequence is malformed, or it returns the joined
    segments and the sequence is not malformed. *)
Lemma composeTypeName_cases (descriptors : list AnyDescriptorProto) :
  (composeTypeName descriptors = Err MalformedChain ∧ malformed descriptors)
  ∨ (∃ first rest names,
        descriptors = first :: rest
        ∧ map name rest = map Some names
        ∧ composeTypeName descriptors
          = Ok (join "." (package_segment first ++ names))
        ∧ ¬ malformed descriptors).
Proof.
  destruct descriptors as [|first rest].
  { left. split; [reflexivity | by left]. }
  destruct rest as [|y r].
  { left. split; [apply composeTypeName_singleton|].
    destruct (FileDescriptorProto_is (Some first)) eqn:Hf.
    - right; right; left. by apply file_not_nameable.
    - right; left. exact Hf. }
  rewrite composeTypeName_cons by done.
  change (last (first :: y :: r)) with (last (y :: r)).
  destruct (FileDescriptorProto_is (Some first)) eqn:Hf.
  2:{ left. split; [reflexivity|]. right; left. exact Hf. }
  destruct (isAnyTypeDescriptorProto (last (y :: r))) eqn:Hl.
  2:{ left. split; [reflexivity|]. right; right; left.
      change (last (first :: y :: r)) with (last (y :: r)). exact Hl. }
  cbn [assert mbind result_bind].
  destruct (compose_parts_cases first (y :: r)) as [(names & Hm & Hp)|[Hex Hp]].
  - right. exists first, (y :: r), names. repeat split; try done.
    intros [H|[H|[H|(d & Hd & Hnone)]]].
    + discriminate.
    + change (head (first :: y :: r)) with (Some first) in H. congruence.
    + change (last (first :: y :: r)) with (last (y :: r)) in H. congruence.
    + by apply (names_defined _ _ _ Hm Hd).
  - left. split; [exact Hp|]. right; right; right. exact Hex.
Qed.

(** C7. [composeTypeName] fails with [MalformedChain] exactly when the
    sequence is empty, or its first element is not a File descriptor, or its
    last element is not a nameable descriptor, or an element other than the
    first has no defined name; it succeeds exactly on the other sequences,
    and it has no other failure. *)
Theorem composeTypeName_malformed_iff (descriptors : list AnyDescriptorProto) :
  (composeTypeName descriptors = Err MalformedChain ↔ malformed descriptors)
  ∧ ((∃ s, composeTypeName descriptors = Ok s) ↔ ¬ malformed descriptors)
  ∧ (∀ e, composeTypeName descriptors = Err e → e = MalformedChain).
Proof.
  destruct (composeTypeName_cases descriptors)
    as [[He Hm]|(first & rest & names & -> & _ & Hok & Hwf)].
  - rewrite He. split; [|split].
    + split; [intros _; exact Hm | reflexivity].
    + split; [intros [s Hs]; discriminate | intros Hwf; by destruct Hwf].
    + intros e [= <-]. reflexivity.
  - rewrite Hok. split; [|split].
    + split; [discriminate | intros Hm; by destruct Hwf].
    + split; [intros _; exact Hwf | intros _; by eexists].
    + discriminate.
Qed.

Lemma startsWith_join (segments : list string) :
  startsWith (join "." segments) "." = leading_period segments.
Proof.
  destruct segments as [|s [|t rest]]; [reflexivity | reflexivity |].
  unfold join. cbn [String.concat leading_period].
  destruct s as [|c s].
  - change (startsWith (String "." (String.concat "." (t :: rest))) "." = true).
    by rewrite startsWith_dot_cons.
  - change (startsWith
              (String c (String.append s
                 (String "." (String.concat "." (t :: rest))))) "."
            = startsWith (String c s) ".").
    by rewrite !startsWith_dot_cons.
Qed.

(** C6 (as amended). On a chain made of a File descriptor, elements with
    defined names and a nameable target with a defined name,
    [composeTypeName] returns the package (a segment only when it is defined
    and not empty), then the names of the elements below the file in order,
    then the name of the target, joined with periods. The join adds no
    leading period: the result begins with a period exactly when the first
    segment does, or is empty and followed by another segment. The two
    examples of the specification follow. *)
Theorem composeTypeName_segments :
  (∀ (first : AnyDescriptorProto) (items : list AnyDescriptorProto)
     (target : AnyDescriptorProto) (names : list string),
      FileDescriptorProto_is (Some first) = true →
      isAnyTypeDescriptorProto (Some target) = true →
      map name (items ++ [target]) = map Some names →
      composeTypeName (first :: items ++ [target])
        = Ok (join "." (package_segment first ++ names))
      ∧ startsWith (join "." (package_segment first ++ names)) "."
        = leading_period (package_segment first ++ names))
  ∧ (∀ file ancestor target : AnyDescriptorProto,
      FileDescriptorProto_is (Some file) = true →
      package file = Some "my_package" →
      name ancestor = Some "MyMessage" →
      isAnyTypeDescriptorProto (Some target) = true →
      name target = Some "MyNestedMessage" →
      composeTypeName [file; ancestor; target]
        = Ok "my_package.MyMessage.MyNestedMessage")
  ∧ (∀ file target : AnyDescriptorProto,
      FileDescriptorProto_is (Some file) = true →
      package file = Some "" ∨ package file = None →
      isAnyTypeDescriptorProto (Some target) = true →
      name target = Some "TopLevel" →
      composeTypeName [file; target] = Ok "TopLevel").
Proof.
  assert (General : ∀ first items target names,
      FileDescriptorProto_is (Some first) = true →
      isAnyTypeDescriptorProto (Some target) = true →
      map name (items ++ [target]) = map Some names →
      composeTypeName (first :: items ++ [target])
        = Ok (join "." (package_segment first ++ names))).
  { intros first items target names Hf Ht Hn.
    rewrite composeTypeName_cons by (by destruct items).
    rewrite Hf, last_snoc, Ht. cbn [assert mbind result_bind].
    destruct (compose_parts_cases first (items ++ [target]))
      as [(names' & Hm & Hp)|[(d & Hd & Hnone) _]].
    - rewrite Hp. rewrite Hn in Hm.
      apply (inj (map Some)) in Hm. by subst.
    - by destruct (names_defined _ _ _ Hn Hd). }
  split; [|split].
  - intros first items target names Hf Ht Hn. split.
    + by apply General.
    + apply startsWith_join.
  - intros file ancestor target Hf Hp Ha Ht Hn.
    etrans.
    { apply (General file [ancestor] target ["MyMessage"; "MyNestedMessage"]);
        [done | done | simpl; by rewrite Ha, Hn]. }
    unfold package_segment. by rewrite Hp.
  - intros file target Hf Hp Ht Hn.
    etrans.
    { apply (General file [] target ["TopLevel"]);
        [done | done | simpl; by rewrite Hn]. }
    unfold package_segment. by destruct Hp as [-> | ->].
Qed.

(** C6, witness: the chain of [Inner] in file [a]. *)
Lemma composeTypeName_segments_witness :
  composeTypeName [FileA; Outer; Inner] = Ok "pkg.Outer.Inner"
  ∧ startsWith "pkg.Outer.Inner" "." = false.
Proof.
  exact (proj1 composeTypeName_segments FileA [Outer] Inner ["Outer"; "Inner"]
           eq_refl eq_refl eq_refl).
Defined.

(** C6, counterexample. The chain of a file without package and a message
    named [.X] passes every check of [composeTypeName], and the composed
    name begins with a period. *)
Lemma composeTypeName_leading_period :
  ¬ malformed [FileNoPackage; DotX]
  ∧ composeTypeName [FileNoPackage; DotX] = Ok ".X"
  ∧ startsWith ".X" "." = true.
Proof.
  split; [|split; reflexivity].
  destruct (composeTypeName_cases [FileNoPackage; DotX])
    as [[He _]|(f & r & ns & _ & _ & _ & Hwf)]; [discriminate | exact Hwf].
Qed.

(** ** Construction of the table *)

Lemma entry_name_failure (e : Entry) (x : Failure) :
  entry_name e = Err x → x = MalformedChain.
Proof.
  unfold entry_name.
  destruct (composeTypeName_cases (ancestors e ++ [descriptor e]))
    as [[He _]|(f & r & ns & _ & _ & Hok & _)]; congruence.
Qed.

(** One iteration of the constructor's loop. *)
Lemma constructor_loop_cons (e : Entry) (rest : list Entry)
  (names : gmap string AnyDescriptorProto)
  (reverse : gmap AnyDescriptorProto string) :
  constructor_loop (e :: rest) names reverse =
    match entry_name e with
    | Err x => Err x
    | Ok n =>
        match names !! n with
        | Some _ => Err DuplicateName
        | None =>
            constructor_loop rest
              (<[n := descriptor e]> names) (<[descriptor e := n]> reverse)
        end
    end.
Proof.
  cbn [constructor_loop]. fold (entry_name e).
  destruct (entry_name e) as [n|x]; [|reflexivity].
  cbn [mbind result_bind].
  destruct (names !! n) as [d|] eqn:Hn.
  - rewrite bool_decide_eq_true_2 by (by eexists). reflexivity.
  - rewrite bool_decide_eq_false_2 by (by intros [? ?]). reflexivity.
Qed.

(** When the loop stops on a duplicate: after a prefix of entries that
    compose to distinct names absent from [names], an entry composes to a
    name of the prefix or of [names]. *)
Lemma constructor_loop_duplicate (data : list Entry)
  (names : gmap string AnyDescriptorProto)
  (reverse : gmap AnyDescriptorProto string) :
  constructor_loop data names reverse = Err DuplicateName ↔
  ∃ pre e post ns n,
    data = pre ++ e :: post
    ∧ composes pre ns ∧ NoDup ns
    ∧ (∀ n', n' ∈ ns → names !! n' = None)
    ∧ entry_name e = Ok n
    ∧ (n ∈ ns ∨ is_Some (names !! n)).
Proof.
  revert names reverse.
  induction data as [|e0 rest IH]; intros names reverse.
  { split; [discriminate|]. intros (pre & e & post & ns & n & H & _).
    by destruct pre. }
  rewrite constructor_loop_cons.
  destruct (entry_name e0) as [n0|x] eqn:He0.
  2:{ split.
      - intros [= ->]. by apply entry_name_failure in He0.
      - intros (pre & e & post & ns & n & H & Hc & _ & _ & He & _).
        destruct pre as [|e' pre]; simpl in H; injection H as <- _.
        + congruence.
        + inversion Hc; congruence. }
  destruct (names !! n0) as [d0|] eqn:Hn0.
  { split; [intros _|reflexivity].
    exists [], e0, rest, [], n0. repeat split; try done.
    - constructor.
    - constructor.
    - intros n' Hn'. by apply elem_of_nil in Hn'.
    - right. by eexists. }
  rewrite IH. split.
  - intros (pre & e & post & ns & n & -> & Hc & Hnd & Hfresh & He & Hn).
    exists (e0 :: pre), e, post, (n0 :: ns), n.
    assert (Hn0ns : n0 ∉ ns).
    { intros Hin. specialize (Hfresh _ Hin). by rewrite lookup_insert_eq in Hfresh. }
    repeat split; try done.
    + by constructor.
    + by constructor.
    + intros n' [->|Hin]%elem_of_cons; [done|].
      specialize (Hfresh _ Hin).
      destruct (decide (n0 = n')) as [->|Hne]; [done|].
      by rewrite lookup_insert_ne in Hfresh.
    + destruct Hn as [Hn|Hn]; [left; by right|].
      destruct (decide (n0 = n)) as [->|Hne]; [left; by left|].
      rewrite lookup_insert_ne in Hn by done. by right.
  - intros (pre & e & post & ns & n & H & Hc & Hnd & Hfresh & He & Hn).
    destruct pre as [|e' pre]; simpl in H; injection H as <- ->.
    { rewrite He0 in He. injection He as <-.
      destruct Hn as [Hn|[? Hn]]; [|congruence].
      inversion Hc; subst. by apply elem_of_nil in Hn. }
    inversion Hc as [|? n1 ? ns' He1 Hc']; subst.
    rewrite He0 in He1. injection He1 as <-.
    apply NoDup_cons in Hnd as [Hnotin Hnd].
    exists pre, e, post, ns', n. repeat split; try done.
    + intros n' Hin. rewrite lookup_insert_ne by (intros ->; done).
      apply Hfresh. by right.
    + destruct Hn as [[->|Hn]%elem_of_cons|Hn].
      * right. rewrite lookup_insert_eq. by eexists.
      * by left.
      * right. destruct Hn as [d Hd].
        rewrite lookup_insert_ne by congruence. by eexists.
Qed.

Lemma TypeNameLookup_new_failure (data : list Entry) (x : Failure) :
  TypeNameLookup_new data = Err x ↔ constructor_loop data ∅ ∅ = Err x.
Proof.
  unfold TypeNameLookup_new.
  destruct (constructor_loop data ∅ ∅) as [maps|y].
  - split; discriminate.
  - split; intros [= ->]; reflexivity.
Qed.

(** C8 (as amended). The construction aborts with the duplicate-name
    failure exactly when, after entries that all composed to distinct names,
    an entry composes to a name that is already a key of the forward map,
    whichever descriptor that key maps to. Two entries that compose to the
    same name abort the build, so the two files that each declare [pkg.Dup]
    do, and a failed build returns no table. *)
Theorem TypeNameLookup_new_duplicate_iff (data : list Entry) :
  (TypeNameLookup_new data = Err DuplicateName ↔
   ∃ pre e post ns n,
     data = pre ++ e :: post
     ∧ composes pre ns ∧ NoDup ns
     ∧ entry_name e = Ok n
     ∧ n ∈ ns)
  ∧ (∀ e1 e2 n, entry_name e1 = Ok n → entry_name e2 = Ok n →
       TypeNameLookup_new [e1; e2] = Err DuplicateName)
  ∧ TypeNameLookup_new [mkEntry DupA [FileA]; mkEntry DupB [FileB]]
    = Err DuplicateName.
Proof.
  assert (Main : ∀ data, TypeNameLookup_new data = Err DuplicateName ↔
   ∃ pre e post ns n,
     data = pre ++ e :: post ∧ composes pre ns ∧ NoDup ns
     ∧ entry_name e = Ok n ∧ n ∈ ns).
  { clear data. intros data.
    rewrite TypeNameLookup_new_failure, constructor_loop_duplicate. split.
    - intros (pre & e & post & ns & n & H & Hc & Hnd & _ & He & [Hn|[d Hd]]).
      + by exists pre, e, post, ns, n.
      + by rewrite lookup_empty in Hd.
    - intros (pre & e & post & ns & n & H & Hc & Hnd & He & Hn).
      exists pre, e, post, ns, n. repeat split; try done. by left. }
  assert (Two : ∀ e1 e2 n, entry_name e1 = Ok n → entry_name e2 = Ok n →
       TypeNameLookup_new [e1; e2] = Err DuplicateName).
  { intros e1 e2 n H1 H2. apply Main.
    exists [e1], e2, [], [n], n. repeat split; try done.
    - by repeat constructor.
    - apply NoDup_singleton.
    - by left. }
  split; [apply Main | split; [exact Two|]].
  by apply (Two _ _ "pkg.Dup").
Qed.

(** C8, counterexample. The same descriptor composing to the same name
    twice is a failure: the constructor asks only whether the name is a key
    of the forward map, not which descriptor the key maps to. *)
Lemma TypeNameLookup_new_same_descriptor_twice :
  entry_name (mkEntry Outer [FileA]) = Ok "pkg.Outer"
  ∧ TypeNameLookup_new [mkEntry Outer [FileA]; mkEntry Outer [FileA]]
    = Err DuplicateName.
Proof.
  split; vm_compute; reflexivity.
Qed.

(** The loop on names that are distinct, absent from [names] and without
    leading period: it succeeds, every key of the resulting reverse map maps
    to a name that the forward map maps back to it, and the reverse map has
    every descriptor of [data] as a key. *)
Lemma constructor_loop_ok (data : list Entry) (ns : list string)
  (names : gmap string AnyDescriptorProto)
  (reverse : gmap AnyDescriptorProto string) :
  composes data ns → NoDup ns →
  (∀ n, n ∈ ns → names !! n = None) →
  Forall (fun n => startsWith n "." = false) ns →
  (∀ d n, reverse !! d = Some n →
          names !! n = Some d ∧ startsWith n "." = false) →
  ∃ names' reverse',
    constructor_loop data names reverse = Ok (names', reverse')
    ∧ (∀ d n, reverse' !! d = Some n →
              names' !! n = Some d ∧ startsWith n "." = false)
    ∧ (∀ d, is_Some (reverse !! d) → is_Some (reverse' !! d))
    ∧ (∀ e, e ∈ data → is_Some (reverse' !! descriptor e)).
Proof.
  intros Hc. revert names reverse.
  induction Hc as [|e n data ns He Hc IH]; intros names reverse Hnd Hfresh Hdot Hinv.
  { exists names, reverse. split; [reflexivity|]. split; [exact Hinv|].
    split; [done|]. intros e He. by apply elem_of_nil in He. }
  apply NoDup_cons in Hnd as [Hn Hnd].
  apply Forall_cons in Hdot as [Hndot Hdot].
  rewrite constructor_loop_cons, He, (Hfresh n) by (by left).
  destruct (IH (<[n := descriptor e]> names) (<[descriptor e := n]> reverse))
    as (names' & reverse' & Hloop & Hinv' & Hkeys & Hdata); try done.
  - intros n' Hn'. rewrite lookup_insert_ne by (intros ->; done).
    apply Hfresh. by right.
  - intros d n' Hd. destruct (decide (descriptor e = d)) as [<-|Hne].
    + rewrite lookup_insert_eq in Hd. injection Hd as <-.
      by rewrite lookup_insert_eq.
    + rewrite lookup_insert_ne in Hd by done.
      destruct (Hinv _ _ Hd) as [Hnames Hnd'].
      split; [|done]. rewrite lookup_insert_ne; [done|].
      intros ->. rewrite (Hfresh n') in Hnames by (by left). discriminate.
  - exists names', reverse'. split; [exact Hloop|]. split; [exact Hinv'|]. split.
    + intros d [n' Hd]. apply Hkeys.
      destruct (decide (descriptor e = d)) as [<-|Hne].
      * rewrite lookup_insert_eq. by eexists.
      * rewrite lookup_insert_ne by done. by eexists.
    + intros e' [->|He']%elem_of_cons; [|by apply Hdata].
      apply Hkeys. rewrite lookup_insert_eq. by eexists.
Qed.

(** C3 (as amended). When every entry composes, the composed names are
    pairwise distinct and none of them begins with a period, the
    construction succeeds and, for every descriptor [d] of an entry,
    [resolveTypeName(makeTypeName(d))] is [d]. *)
Theorem TypeNameLookup_roundtrip (data : list Entry) (ns : list string) :
  composes data ns → NoDup ns →
  Forall (fun n => startsWith n "." = false) ns →
  ∃ this,
    TypeNameLookup_new data = Ok this
    ∧ ∀ e, e ∈ data →
        ∃ n, makeTypeName this (descriptor e) = Ok n
             ∧ resolveTypeName this n = Ok (descriptor e).
Proof.
  intros Hc Hnd Hdot.
  assert (Hfresh : ∀ n, n ∈ ns →
            (∅ : gmap string AnyDescriptorProto) !! n = None).
  { intros n _. apply lookup_empty. }
  assert (Hinv0 : ∀ d n, (∅ : gmap AnyDescriptorProto string) !! d = Some n →
            (∅ : gmap string AnyDescriptorProto) !! n = Some d
            ∧ startsWith n "." = false).
  { intros d n Hd. by rewrite lookup_empty in Hd. }
  destruct (constructor_loop_ok data ns ∅ ∅ Hc Hnd Hfresh Hdot Hinv0)
    as (names' & reverse' & Hloop & Hinv & _ & Hdata).
  exists (mkLookup names' reverse'). split.
  { unfold TypeNameLookup_new. by rewrite Hloop. }
  intros e He. destruct (Hdata e He) as [n Hn].
  destruct (Hinv _ _ Hn) as [Hnames Hndot].
  exists n. unfold makeTypeName, resolveTypeName. simpl.
  rewrite Hn. split; [reflexivity|].
  by rewrite (normalizeTypeName_plain _ Hndot), Hnames.
Qed.

(** C3, witness: the table of [Outer] and [Inner] in file [a]. *)
Lemma TypeNameLookup_roundtrip_witness :
  ∃ this,
    TypeNameLookup_new [mkEntry Outer [FileA]; mkEntry Inner [FileA; Outer]]
      = Ok this
    ∧ ∀ e, e ∈ [mkEntry Outer [FileA]; mkEntry Inner [FileA; Outer]] →
        ∃ n, makeTypeName this (descriptor e) = Ok n
             ∧ resolveTypeName this n = Ok (descriptor e).
Proof.
  apply (TypeNameLookup_roundtrip
           [mkEntry Outer [FileA]; mkEntry Inner [FileA; Outer]]
           ["pkg.Outer"; "pkg.Outer.Inner"]).
  - repeat constructor.
  - refine (bool_decide_unpack _ _). vm_compute. exact I.
  - repeat constructor.
Defined.

(** C3, counterexample. The one entry of a message named [.X] in a file
    without package: its composed name is trivially distinct from every
    other, the construction succeeds, and [resolveTypeName] fails on the
    name [makeTypeName] returns, because it strips the period first. *)
Lemma TypeNameLookup_roundtrip_leading_period :
  composes [mkEntry DotX [FileNoPackage]] [".X"]
  ∧ NoDup [".X"]
  ∧ ∃ this,
      TypeNameLookup_new [mkEntry DotX [FileNoPackage]] = Ok this
      ∧ makeTypeName this DotX = Ok ".X"
      ∧ resolveTypeName this ".X" = Err (UnresolvedName "X").
Proof.
  split; [by repeat constructor|].
  split; [apply NoDup_singleton|].
  eexists. split; [reflexivity|]. split; vm_compute; reflexivity.
Qed.

(** C9, witness: [pkg.Outer] in the table of file [a]. *)
Lemma resolveTypeName_leading_period_witness :
  resolveTypeName table_a ".pkg.Outer" = resolveTypeName table_a "pkg.Outer"
  ∧ (∀ d, _names table_a !! "pkg.Outer" = Some d →
          resolveTypeName table_a ".pkg.Outer" = Ok d
          ∧ resolveTypeName table_a "pkg.Outer" = Ok d).
Proof.
  exact (resolveTypeName_leading_period table_a "pkg.Outer" eq_refl).
Defined.

(** C9, counterexample. In the table built from the message named [.X] the
    name [.X] is a key of the forward map; with one more leading period it
    resolves to the message, as it stands it does not resolve. *)
Lemma resolveTypeName_leading_period_key :
  ∃ this,
    TypeNameLookup_new [mkEntry DotX [FileNoPackage]] = Ok this
    ∧ _names this !! ".X" = Some DotX
    ∧ resolveTypeName this (String "." ".X") = Ok DotX
    ∧ resolveTypeName this ".X" = Err (UnresolvedName "X").
Proof.
  eexists. split; [reflexivity|]. repeat split; vm_compute; reflexivity.
Qed.

(** ** composeTypeName and its argument *)

(** A run of [composeTypeName] on the store: the result is that of
    [composeTypeName] on the contents of the argument, and only the copy
    [mid], a location that was free before the call, is written. *)
Lemma composeTypeName_heap_run (h : Heap) (descriptors : nat)
  (ds : list AnyDescriptorProto) :
  h !! descriptors = Some ds →
  ∃ h', composeTypeName_heap descriptors h = (composeTypeName ds, h')
        ∧ ∀ l, l ≠ fresh (dom h) → h' !! l = h !! l.
Proof.
  intros Hl. unfold composeTypeName_heap.
  cbv [mbind ST_bind heap_read st_lift heap_concat heap_shift heap_pop].
  rewrite Hl.
  destruct ds as [|first rest].
  { exists h. split; [reflexivity | done]. }
  set (mid := fresh (dom h)).
  cbn [List.length Nat.ltb Nat.leb assert id from_option].
  rewrite (lookup_insert_eq h mid).
  cbn [id from_option shift].
  rewrite lookup_insert_eq.
  cbn [id from_option pop].
  exists (<[mid:=removelast rest]> (<[mid:=rest]> (<[mid:=first :: rest]> h))).
  split.
  - unfold composeTypeName, pop.
    cbn [List.length Nat.ltb Nat.leb assert shift mbind result_bind].
    destruct (FileDescriptorProto_is (Some first)); [|reflexivity].
    cbn [assert mbind result_bind].
    destruct (isAnyTypeDescriptorProto (last rest)); [|reflexivity].
    cbn [assert mbind result_bind].
    destruct (last rest) as [l|]; [|reflexivity].
    by rewrite lookup_insert_eq.
  - intros l Hne. by rewrite !lookup_insert_ne.
Qed.

(** C10. After a call of [composeTypeName], whether it returned a name or
    failed, the array it was given holds the same elements in the same
    order as before, and so does every other array of the store; the result
    is that of [composeTypeName] on those elements. *)
Theorem composeTypeName_leaves_argument (h : Heap) (descriptors : nat)
  (ds : list AnyDescriptorProto) :
  h !! descriptors = Some ds →
  (composeTypeName_heap descriptors h).1 = composeTypeName ds
  ∧ (composeTypeName_heap descriptors h).2 !! descriptors = Some ds
  ∧ ∀ l, is_Some (h !! l) →
         (composeTypeName_heap descriptors h).2 !! l = h !! l.
Proof.
  intros Hl.
  destruct (composeTypeName_heap_run h descriptors ds Hl) as (h' & Hrun & Hframe).
  rewrite Hrun. cbn [fst snd].
  assert (Hdom : ∀ l, is_Some (h !! l) → l ≠ fresh (dom h)).
  { intros l Hsome ->. apply elem_of_dom in Hsome. by apply is_fresh in Hsome. }
  split; [reflexivity|]. split.
  - rewrite <- Hl. apply Hframe, Hdom. by eexists.
  - intros l Hsome. by apply Hframe, Hdom.
Qed.

(** C10, witness: a chain that composes, stored at location 0. *)
Lemma composeTypeName_leaves_argument_witness :
  (composeTypeName_heap 0 {[0 := [FileA; Outer; Inner]]}).1
    = composeTypeName [FileA; Outer; Inner]
  ∧ (composeTypeName_heap 0 {[0 := [FileA; Outer; Inner]]}).2 !! 0
    = Some [FileA; Outer; Inner]
  ∧ ∀ l, is_Some (({[0 := [FileA; Outer; Inner]]} : Heap) !! l) →
         (composeTypeName_heap 0 {[0 := [FileA; Outer; Inner]]}).2 !! l
         = ({[0 := [FileA; Outer; Inner]]} : Heap) !! l.
Proof.
  apply (composeTypeName_leaves_argument
           {[0 := [FileA; Outer; Inner]]} 0 [FileA; Outer; Inner]).
  reflexivity.
Defined.

(** ** The climb of [TypeNameLookup.from] *)

(** The loop asks for the parent of [descriptor] on every turn: once that
    parent exists, [p] is never [undefined] again. *)
Lemma climb_diverges (fuel : nat) (b : DescriptorParentFn)
  (descriptor : AnyDescriptorProto) (p : option AnyDescriptorProto)
  (ancestors : list AnyDescriptorProto) :
  is_Some (b descriptor) → is_Some p →
  climb fuel b descriptor p ancestors = None.
Proof.
  intros Hb. revert p ancestors.
  induction fuel as [|fuel IH]; intros p ancestors [p' ->]; [reflexivity|].
  simpl. by apply IH.
Qed.

Lemma climb_root (fuel : nat) (b : DescriptorParentFn)
  (descriptor : AnyDescriptorProto) (ancestors : list AnyDescriptorProto) :
  climb fuel b descriptor None ancestors = Some ancestors.
Proof. by destruct fuel. Qed.

Lemma collect_diverges (fuel : nat) (b : DescriptorParentFn)
  (a : list AnyDescriptorProto) (data : list Entry) (d : AnyDescriptorProto) :
  d ∈ a → isAnyTypeDescriptorProto (Some d) = true → is_Some (b d) →
  collect fuel b a data = None.
Proof.
  intros Hd Hnameable Hb. revert data.
  induction a as [|x a IH]; intros data; [by apply elem_of_nil in Hd|].
  cbn [collect].
  apply elem_of_cons in Hd as [<-|Hd].
  - rewrite Hnameable. cbn [negb].
    by rewrite climb_diverges.
  - destruct (negb (isAnyTypeDescriptorProto (Some x))); [by apply IH|].
    destruct (climb fuel b x (b x) []); [by apply IH | reflexivity].
Qed.

Lemma collect_roots (fuel : nat) (b : DescriptorParentFn)
  (a : list AnyDescriptorProto) (data : list Entry) :
  (∀ d, d ∈ a → isAnyTypeDescriptorProto (Some d) = true → b d = None) →
  collect fuel b a data = Some (data ++ root_entries a).
Proof.
  revert data. induction a as [|x a IH]; intros data Hb.
  { by rewrite app_nil_r. }
  assert (Hb' : ∀ d, d ∈ a → isAnyTypeDescriptorProto (Some d) = true → b d = None).
  { intros d Hd. apply Hb. by right. }
  cbn [collect]. unfold root_entries.
  destruct (isAnyTypeDescriptorProto (Some x)) eqn:Hx; cbn [negb].
  - rewrite (Hb x) by (done || by left). rewrite climb_root.
    rewrite (IH _ Hb'). rewrite filter_cons_True by done.
    by rewrite <- app_assoc.
  - rewrite (IH _ Hb'). rewrite filter_cons_False; [done|congruence].
Qed.

Lemma on_cycle_parent (parentOf : DescriptorParentFn) (d : AnyDescriptorProto) :
  on_cycle parentOf d → is_Some (parentOf d).
Proof. intros H. exact (H 1). Qed.

Lemma parentOf_example_acyclic (d : AnyDescriptorProto) :
  reaches_root parentOf_example d.
Proof.
  exists 3. cbn [nth_parent mbind option_bind].
  destruct (decide (d = Inner)) as [->|HInner]; [reflexivity|].
  destruct (decide (d = Outer)) as [->|HOuter]; [reflexivity|].
  assert (parentOf_example d = None) as ->; [|reflexivity].
  unfold parentOf_example. rewrite decide_False by done.
  by rewrite decide_False.
Qed.

(** C1, at the failing input: the list [FileA; Outer; Inner] with
    [parentOf(Outer) = FileA] and [parentOf(Inner) = Outer]. The climb the
    specification describes pairs [Outer] with [FileA] and [Inner] with
    [FileA; Outer]; the loop of [from] asks again for the parent of [Outer]
    instead of the parent of [FileA], so that it never leaves the loop,
    whatever the number of iterations allowed. *)
Theorem from_flat_list_failing_input :
  (∀ d, reaches_root parentOf_example d)
  ∧ spec_collect 2 parentOf_example [FileA; Outer; Inner]
    = Some [mkEntry Outer [FileA]; mkEntry Inner [FileA; Outer]]
  ∧ (∀ fuel, collect fuel parentOf_example [FileA; Outer; Inner] [] = None)
  ∧ (∀ fuel,
       from fuel (inl [FileA; Outer; Inner]) (Some parentOf_example) = None).
Proof.
  split; [exact parentOf_example_acyclic|].
  assert (H : ∀ fuel,
             collect fuel parentOf_example [FileA; Outer; Inner] [] = None).
  { intros fuel. apply (collect_diverges _ _ _ _ Outer).
    - right; left.
    - reflexivity.
    - by eexists. }
  split; [reflexivity|]. split; [exact H|].
  intros fuel. cbn [from]. by rewrite H.
Qed.

(** C2 (as amended). The climb has no guard against a parent cycle and no
    failure of its own: it leaves the loop only when the parent function
    returns none. On a list whose nameable descriptors have no parent,
    [from] terminates, with the table construction run on those descriptors
    with empty chains. On a list with a nameable descriptor from which
    following the parent function never reaches none, [from] does not
    terminate, whatever the number of iterations allowed. *)
Theorem from_flat_list_termination
  (a : list AnyDescriptorProto) (b : DescriptorParentFn) :
  ((∀ d, d ∈ a → isAnyTypeDescriptorProto (Some d) = true → b d = None) →
   ∀ fuel,
     from fuel (inl a) (Some b) = Some (TypeNameLookup_new (root_entries a)))
  ∧ (∀ d, d ∈ a → isAnyTypeDescriptorProto (Some d) = true → on_cycle b d →
     ∀ fuel, from fuel (inl a) (Some b) = None).
Proof.
  split.
  - intros Hb fuel. cbn [from]. by rewrite (collect_roots _ _ _ _ Hb).
  - intros d Hd Hnameable Hcycle fuel. cbn [from].
    rewrite (collect_diverges fuel b a [] d); try done.
    by apply on_cycle_parent.
Qed.

Lemma on_cycle_example : on_cycle parentOf_cycle Outer.
Proof.
  intros n.
  assert (H : nth_parent parentOf_cycle n Outer = Some Outer
              ∨ nth_parent parentOf_cycle n Outer = Some Inner).
  { induction n as [|n [IH|IH]]; [by left | right | left];
      cbn [nth_parent]; by rewrite IH. }
  destruct H as [-> | ->]; by eexists.
Qed.

(** C2, witness: a list of one file, and the two messages that are each
    other's parent. *)
Lemma from_flat_list_termination_witness :
  (∀ fuel,
     from fuel (inl [FileA]) (Some parentOf_example)
     = Some (TypeNameLookup_new (root_entries [FileA])))
  ∧ (∀ fuel, from fuel (inl [Outer; Inner]) (Some parentOf_cycle) = None).
Proof.
  split.
  - apply (proj1 (from_flat_list_termination [FileA] parentOf_example)).
    intros d Hd Hn. apply list_elem_of_singleton in Hd. subst d. discriminate.
  - apply (proj2 (from_flat_list_termination [Outer; Inner] parentOf_cycle) Outer).
    + left.
    + reflexivity.
    + exact on_cycle_example.
Defined.

(** C2, counterexample. [Outer] and [Inner] are each other's parent: the
    parent function never returns none from [Outer], and [from] is still in
    the loop after any number of iterations; it never reports a
    [MalformedChain]. *)
Lemma from_parent_cycle_loops :
  on_cycle parentOf_cycle Outer
  ∧ (∀ fuel, from fuel (inl [Outer; Inner]) (Some parentOf_cycle) = None)
  ∧ (∀ fuel, from fuel (inl [Outer; Inner]) (Some parentOf_cycle)
             ≠ Some (Err MalformedChain)).
Proof.
  assert (H : ∀ fuel,
             from fuel (inl [Outer; Inner]) (Some parentOf_cycle) = None).
  { intros fuel. cbn [from].
    rewrite (collect_diverges fuel parentOf_cycle [Outer; Inner] [] Outer);
      [reflexivity | left | reflexivity | by eexists]. }
  split; [exact on_cycle_example|]. split; [exact H|].
  intros fuel. by rewrite H.
Qed.

(** ** The end-to-end scenarios of the specification

    File [a] (package [pkg]) with the message [Outer] and its nested message
    [Inner]. Through the tree shape of [from] the table is built; through
    the flat list shape the climb does not end (see C1 above). *)

Example scenario_tree :
  ∃ this,
    from 0 (inr tree_a) None = Some (Ok this)
    ∧ resolveTypeName this "pkg.Outer" = Ok Outer
    ∧ resolveTypeName this "pkg.Outer.Inner" = Ok Inner
    ∧ resolveTypeName this ".pkg.Outer.Inner" = Ok Inner
    ∧ makeTypeName this Inner = Ok "pkg.Outer.Inner"
    ∧ peekTypeName this "pkg.Missing" = None.
Proof.
  eexists. split; [reflexivity|]. repeat split; vm_compute; reflexivity.
Qed.

Example scenario_invalid_arguments :
  from 0 (inr tree_a) (Some parentOf_example) = Some (Err InvalidArguments).
Proof. reflexivity. Qed.

(** * Further properties of the table *)

(** ** The loop of the constructor, piece by piece *)

Lemma constructor_loop_app (pre rest : list Entry)
  (names : gmap string AnyDescriptorProto)
  (reverse : gmap AnyDescriptorProto string) :
  constructor_loop (pre ++ rest) names reverse =
    match constructor_loop pre names reverse with
    | Ok maps => constructor_loop rest maps.1 maps.2
    | Err x => Err x
    end.
Proof.
  revert names reverse. induction pre as [|e pre IH]; intros names reverse.
  { reflexivity. }
  change ((e :: pre) ++ rest) with (e :: (pre ++ rest)).
  rewrite !constructor_loop_cons.
  destruct (entry_name e) as [n|x]; [|reflexivity].
  destruct (names !! n); [reflexivity | apply IH].
Qed.

Lemma constructor_loop_failure (data : list Entry)
  (names : gmap string AnyDescriptorProto)
  (reverse : gmap AnyDescriptorProto string) (x : Failure) :
  constructor_loop data names reverse = Err x →
  x = MalformedChain ∨ x = DuplicateName.
Proof.
  revert names reverse. induction data as [|e data IH]; intros names reverse.
  { discriminate. }
  rewrite constructor_loop_cons.
  destruct (entry_name e) as [n|y] eqn:He.
  - destruct (names !! n); [intros [= <-]; by right | apply IH].
  - intros [= <-]. left. by eapply entry_name_failure.
Qed.

(** The loop succeeds exactly when the entries compose to distinct names
    that are not yet keys of the forward map. *)
Lemma constructor_loop_success_iff (data : list Entry)
  (names : gmap string AnyDescriptorProto)
  (reverse : gmap AnyDescriptorProto string) :
  (∃ maps, constructor_loop data names reverse = Ok maps) ↔
  ∃ ns, composes data ns ∧ NoDup ns ∧ ∀ n, n ∈ ns → names !! n = None.
Proof.
  revert names reverse. induction data as [|e data IH]; intros names reverse.
  { split; [intros _|by eexists].
    exists []. split; [constructor|]. split; [constructor|].
    intros n Hn. by apply elem_of_nil in Hn. }
  rewrite constructor_loop_cons. split.
  - intros [maps Hloop].
    destruct (entry_name e) as [n|y] eqn:He; [|discriminate].
    destruct (names !! n) eqn:Hn; [discriminate|].
    destruct (proj1 (IH _ _) (ex_intro _ maps Hloop)) as (ns & Hc & Hnd & Hfresh).
    assert (Hnotin : n ∉ ns).
    { intros Hin. specialize (Hfresh _ Hin). by rewrite lookup_insert_eq in Hfresh. }
    exists (n :: ns). split; [by constructor|]. split; [by constructor|].
    intros n' [->|Hin]%elem_of_cons; [done|].
    specialize (Hfresh _ Hin).
    rewrite lookup_insert_ne in Hfresh; [done | by intros ->].
  - intros (ns & Hc & Hnd & Hfresh).
    inversion Hc as [|? n ? ns' He Hc']; subst.
    apply NoDup_cons in Hnd as [Hnotin Hnd].
    rewrite He, (Hfresh n) by (by left).
    apply IH. exists ns'. split; [done|]. split; [done|].
    intros n' Hin. rewrite lookup_insert_ne by (by intros ->).
    apply Hfresh. by right.
Qed.

(** The keys of the forward map after a successful loop: the names the
    entries composed to, each with the descriptor of its entry, and the
    keys that were there before. *)
Lemma constructor_loop_names (data : list Entry)
  (names names' : gmap string AnyDescriptorProto)
  (reverse reverse' : gmap AnyDescriptorProto string) :
  constructor_loop data names reverse = Ok (names', reverse') →
  ∀ n d, names' !! n = Some d ↔
         (∃ e, e ∈ data ∧ entry_name e = Ok n ∧ descriptor e = d)
         ∨ names !! n = Some d.
Proof.
  revert names reverse. induction data as [|e data IH]; intros names reverse.
  { intros [= <- <-] n d. split; [by right|].
    intros [(e & He & _)|H]; [by apply elem_of_nil in He | done]. }
  rewrite constructor_loop_cons.
  destruct (entry_name e) as [n0|y] eqn:He; [|discriminate].
  destruct (names !! n0) eqn:Hn0; [discriminate|].
  intros Hloop n d. rewrite (IH _ _ Hloop n d). split.
  - intros [(e' & Hin & Hname & Hd)|H].
    + left. exists e'. split; [by right | done].
    + destruct (decide (n0 = n)) as [->|Hne].
      * rewrite lookup_insert_eq in H. injection H as <-.
        left. exists e. split; [by left | done].
      * rewrite lookup_insert_ne in H by done. by right.
  - intros [(e' & Hin & Hname & Hd)|H].
    + apply elem_of_cons in Hin as [->|Hin].
      * right. rewrite He in Hname. injection Hname as ->.
        by rewrite lookup_insert_eq, Hd.
      * left. by exists e'.
    + right. rewrite lookup_insert_ne; [done|]. intros ->. congruence.
Qed.

(** The reverse map after a successful loop: a descriptor is a key exactly
    when it is the descriptor of an entry or was a key before, and the name
    of a new key is the name one of its entries composed to. *)
Lemma constructor_loop_reverse (data : list Entry)
  (names names' : gmap string AnyDescriptorProto)
  (reverse reverse' : gmap AnyDescriptorProto string) :
  constructor_loop data names reverse = Ok (names', reverse') →
  (∀ d, is_Some (reverse' !! d) ↔
        (∃ e, e ∈ data ∧ descriptor e = d) ∨ is_Some (reverse !! d))
  ∧ (∀ d n, reverse' !! d = Some n →
        (∃ e, e ∈ data ∧ descriptor e = d ∧ entry_name e = Ok n)
        ∨ reverse !! d = Some n).
Proof.
  revert names reverse. induction data as [|e data IH]; intros names reverse.
  { intros [= <- <-]. split.
    - intros d. split; [by right|].
      intros [(e & He & _)|H]; [by apply elem_of_nil in He | done].
    - intros d n H. by right. }
  rewrite constructor_loop_cons.
  destruct (entry_name e) as [n0|y] eqn:He; [|discriminate].
  destruct (names !! n0) eqn:Hn0; [discriminate|].
  intros Hloop. destruct (IH _ _ Hloop) as [Hkeys Hvals]. split.
  - intros d. rewrite (Hkeys d). split.
    + intros [(e' & Hin & Hd)|H].
      * left. exists e'. split; [by right | done].
      * destruct (decide (descriptor e = d)) as [<-|Hne].
        -- left. exists e. split; [by left | done].
        -- rewrite lookup_insert_ne in H by done. by right.
    + intros [(e' & Hin & Hd)|H].
      * apply elem_of_cons in Hin as [->|Hin].
        -- right. rewrite Hd, lookup_insert_eq. by eexists.
        -- left. by exists e'.
      * destruct (decide (descriptor e = d)) as [<-|Hne].
        -- right. rewrite lookup_insert_eq. by eexists.
        -- right. by rewrite lookup_insert_ne.
  - intros d n H. destruct (Hvals d n H) as [(e' & Hin & Hd & Hname)|H'].
    + left. exists e'. split; [by right | done].
    + destruct (decide (descriptor e = d)) as [<-|Hne].
      * rewrite lookup_insert_eq in H'. injection H' as <-.
        left. exists e. split; [by left | done].
      * rewrite lookup_insert_ne in H' by done. by right.
Qed.

Lemma TypeNameLookup_new_maps (data : list Entry) (this : TypeNameLookup) :
  TypeNameLookup_new data = Ok this ↔
  constructor_loop data ∅ ∅ = Ok (_names this, _reverse this).
Proof.
  unfold TypeNameLookup_new.
  destruct (constructor_loop data ∅ ∅) as [[names reverse]|x].
  - cbn [mbind result_bind fst snd]. destruct this as [names' reverse'].
    cbn [_names _reverse]. split; intros [= -> ->]; reflexivity.
  - split; discriminate.
Qed.

Lemma entry_name_malformed (e : Entry) :
  entry_name e = Err MalformedChain ↔ malformed (ancestors e ++ [descriptor e]).
Proof.
  unfold entry_name.
  destruct (composeTypeName_cases (ancestors e ++ [descriptor e]))
    as [[He Hm]|(f & r & ns & _ & _ & Hok & Hwf)].
  - by rewrite He.
  - rewrite Hok. split; [discriminate | done].
Qed.

(** When the loop stops on a malformed chain: after a prefix of entries
    that compose to distinct names absent from [names]. *)
Lemma constructor_loop_malformed (data : list Entry)
  (names : gmap string AnyDescriptorProto)
  (reverse : gmap AnyDescriptorProto string) :
  constructor_loop data names reverse = Err MalformedChain ↔
  ∃ pre e post ns,
    data = pre ++ e :: post
    ∧ composes pre ns ∧ NoDup ns
    ∧ (∀ n, n ∈ ns → names !! n = None)
    ∧ entry_name e = Err MalformedChain.
Proof.
  split.
  - revert names reverse.
    induction data as [|e0 rest IH]; intros names reverse; [discriminate|].
    rewrite constructor_loop_cons.
    destruct (entry_name e0) as [n0|x] eqn:He0.
    + destruct (names !! n0) eqn:Hn0; [discriminate|].
      intros (pre & e & post & ns & -> & Hc & Hnd & Hfresh & He)%IH.
      assert (Hnotin : n0 ∉ ns).
      { intros Hin. specialize (Hfresh _ Hin).
        by rewrite lookup_insert_eq in Hfresh. }
      exists (e0 :: pre), e, post, (n0 :: ns).
      split; [reflexivity|]. split; [by constructor|].
      split; [by constructor|]. split; [|done].
      intros n' [->|Hin]%elem_of_cons; [done|].
      specialize (Hfresh _ Hin).
      rewrite lookup_insert_ne in Hfresh; [done | by intros ->].
    + intros [= ->]. exists [], e0, rest, [].
      split; [reflexivity|]. split; [constructor|]. split; [constructor|].
      split; [|done]. intros n Hn. by apply elem_of_nil in Hn.
  - intros (pre & e & post & ns & -> & Hc & Hnd & Hfresh & He).
    rewrite constructor_loop_app.
    destruct (proj2 (constructor_loop_success_iff pre names reverse))
      as [maps ->]; [by exists ns|].
    by rewrite constructor_loop_cons, He.
Qed.

(** ** The constructor *)

(** X1. The construction succeeds exactly when every entry composes and
    the composed names are pairwise distinct. *)
Theorem TypeNameLookup_new_succeeds_iff (data : list Entry) :
  (∃ this, TypeNameLookup_new data = Ok this) ↔
  ∃ ns, composes data ns ∧ NoDup ns.
Proof.
  split.
  - intros [this Hnew%TypeNameLookup_new_maps].
    destruct (proj1 (constructor_loop_success_iff data ∅ ∅))
      as (ns & Hc & Hnd & _); [by eexists|].
    by exists ns.
  - intros (ns & Hc & Hnd).
    destruct (proj2 (constructor_loop_success_iff data ∅ ∅))
      as [[names reverse] Hloop].
    { exists ns. split; [done|]. split; [done|]. intros n _. apply lookup_empty. }
    exists (mkLookup names reverse). by apply TypeNameLookup_new_maps.
Qed.

(** X2. The construction fails with [MalformedChain] exactly when, after
    entries that all composed to distinct names, an entry has a malformed
    chain; and the constructor has no failure besides [MalformedChain] and
    [DuplicateName]. *)
Theorem TypeNameLookup_new_malformed_iff (data : list Entry) :
  (TypeNameLookup_new data = Err MalformedChain ↔
   ∃ pre e post ns,
     data = pre ++ e :: post
     ∧ composes pre ns ∧ NoDup ns
     ∧ malformed (ancestors e ++ [descriptor e]))
  ∧ (∀ x, TypeNameLookup_new data = Err x →
          x = MalformedChain ∨ x = DuplicateName).
Proof.
  split.
  - rewrite TypeNameLookup_new_failure, constructor_loop_malformed. split.
    + intros (pre & e & post & ns & H & Hc & Hnd & _ & He).
      exists pre, e, post, ns. by rewrite <- entry_name_malformed.
    + intros (pre & e & post & ns & H & Hc & Hnd & He).
      exists pre, e, post, ns. rewrite entry_name_malformed.
      split; [done|]. split; [done|]. split; [done|]. split; [|done].
      intros n _. apply lookup_empty.
  - intros x Hx%TypeNameLookup_new_failure.
    by eapply constructor_loop_failure.
Qed.

(** ** The lookups on a constructed table *)

(** X3. On a constructed table, [resolveTypeName] returns a descriptor
    exactly when an entry with that descriptor composed to the normalized
    name, and [peekTypeName] returns it in the same case. *)
Theorem resolveTypeName_entries (data : list Entry) (this : TypeNameLookup) :
  TypeNameLookup_new data = Ok this →
  ∀ n d,
    (resolveTypeName this n = Ok d ↔
     ∃ e, e ∈ data ∧ entry_name e = Ok (normalizeTypeName n)
          ∧ descriptor e = d)
    ∧ (peekTypeName this n = Some d ↔
       ∃ e, e ∈ data ∧ entry_name e = Ok (normalizeTypeName n)
            ∧ descriptor e = d).
Proof.
  intros Hnew%TypeNameLookup_new_maps n d.
  pose proof (constructor_loop_names _ _ _ _ _ Hnew (normalizeTypeName n) d) as H.
  assert (Hpeek : peekTypeName this n = Some d ↔
            ∃ e, e ∈ data ∧ entry_name e = Ok (normalizeTypeName n)
                 ∧ descriptor e = d).
  { unfold peekTypeName. rewrite H. split; [|by left].
    intros [He|Hempty]; [done | by rewrite lookup_empty in Hempty]. }
  split; [|exact Hpeek].
  rewrite <- Hpeek. unfold resolveTypeName, peekTypeName.
  destruct (_names this !! normalizeTypeName n); split; congruence.
Qed.

(** X4. On a constructed table, [makeTypeName] succeeds exactly on the
    descriptors of the entries and fails with [UnknownDescriptor] on every
    other descriptor; the name it returns is a name an entry of that
    descriptor composed to. *)
Theorem makeTypeName_known (data : list Entry) (this : TypeNameLookup) :
  TypeNameLookup_new data = Ok this →
  ∀ d,
    ((∃ n, makeTypeName this d = Ok n) ↔ ∃ e, e ∈ data ∧ descriptor e = d)
    ∧ (makeTypeName this d = Err UnknownDescriptor ↔
       ¬ ∃ e, e ∈ data ∧ descriptor e = d)
    ∧ (∀ n, makeTypeName this d = Ok n →
            ∃ e, e ∈ data ∧ descriptor e = d ∧ entry_name e = Ok n).
Proof.
  intros Hnew%TypeNameLookup_new_maps d.
  destruct (constructor_loop_reverse _ _ _ _ _ Hnew) as [Hkeys Hvals].
  assert (Hdom : is_Some (_reverse this !! d) ↔ ∃ e, e ∈ data ∧ descriptor e = d).
  { rewrite Hkeys. split; [|by left].
    intros [He|[? Hempty]]; [done | by rewrite lookup_empty in Hempty]. }
  unfold makeTypeName. split; [|split].
  - rewrite <- Hdom. destruct (_reverse this !! d) as [n|].
    + split; [by eexists | by eexists].
    + split; [intros [n Hn]; discriminate | intros [n Hn]; discriminate].
  - rewrite <- Hdom. destruct (_reverse this !! d) as [n|].
    + split; [discriminate | intros Hno; destruct Hno; by eexists].
    + split; [intros _ [n Hn]; discriminate | reflexivity].
  - intros n Hn. destruct (_reverse this !! d) as [n'|] eqn:Hrev; [|discriminate].
    injection Hn as ->.
    destruct (Hvals d n Hrev) as [He|Hempty]; [done|].
    by rewrite lookup_empty in Hempty.
Qed.

(** X5. On a constructed table, the name [makeTypeName] returns for the
    descriptor of an entry resolves to that descriptor when it is given with
    the leading period that protoc writes, whatever the name begins with. *)
Theorem resolveTypeName_period_makeTypeName
  (data : list Entry) (this : TypeNameLookup) :
  TypeNameLookup_new data = Ok this →
  ∀ e, e ∈ data →
    ∃ n, makeTypeName this (descriptor e) = Ok n
         ∧ resolveTypeName this (String "." n) = Ok (descriptor e)
         ∧ peekTypeName this (String "." n) = Some (descriptor e).
Proof.
  intros Hnew%TypeNameLookup_new_maps e He.
  destruct (constructor_loop_reverse _ _ _ _ _ Hnew) as [Hkeys Hvals].
  destruct (proj2 (Hkeys (descriptor e))) as [n Hn].
  { left. by exists e. }
  exists n. unfold makeTypeName, resolveTypeName, peekTypeName.
  rewrite Hn, normalizeTypeName_dot.
  assert (Hfwd : _names this !! n = Some (descriptor e)).
  { apply (constructor_loop_names _ _ _ _ _ Hnew).
    destruct (Hvals _ _ Hn) as [(e' & Hin & Hd & Hname)|Hempty].
    - left. by exists e'.
    - by rewrite lookup_empty in Hempty. }
  by rewrite Hfwd.
Qed.

Lemma NoDup_map_inj {A B : Type} (f : A → B) (l : list A) (x y : A) :
  NoDup (map f l) → x ∈ l → y ∈ l → f x = f y → x = y.
Proof.
  induction l as [|a l IH]; intros Hnd Hx Hy Hf.
  { by apply elem_of_nil in Hx. }
  simpl in Hnd. apply NoDup_cons in Hnd as [Hnotin Hnd].
  apply elem_of_cons in Hx as [->|Hx]; apply elem_of_cons in Hy as [->|Hy].
  - reflexivity.
  - destruct Hnotin. rewrite Hf. apply list_elem_of_fmap. by exists y.
  - destruct Hnotin. rewrite <- Hf. apply list_elem_of_fmap. by exists x.
  - by apply IH.
Qed.

(** X6. On a table constructed from entries with pairwise distinct
    descriptors, [makeTypeName] undoes [resolveTypeName]: when a name
    resolves to a descriptor, [makeTypeName] of that descriptor is the
    normalized name. *)
Theorem makeTypeName_resolveTypeName (data : list Entry) (this : TypeNameLookup) :
  TypeNameLookup_new data = Ok this →
  NoDup (map descriptor data) →
  ∀ n d, resolveTypeName this n = Ok d →
         makeTypeName this d = Ok (normalizeTypeName n).
Proof.
  intros Hnew Hnd n d Hres.
  pose proof Hnew as Hloop%TypeNameLookup_new_maps.
  destruct (constructor_loop_names _ _ _ _ _ Hloop (normalizeTypeName n) d) as [Hn _].
  destruct (constructor_loop_reverse _ _ _ _ _ Hloop) as [Hkeys Hvals].
  unfold resolveTypeName in Hres.
  destruct (_names this !! normalizeTypeName n) as [d'|] eqn:Hlook; [|discriminate].
  injection Hres as ->.
  destruct (Hn eq_refl) as [(e & He & Hname & Hd)|Hempty];
    [|by rewrite lookup_empty in Hempty].
  destruct (proj2 (Hkeys d)) as [n' Hn']; [left; by exists e|].
  unfold makeTypeName. rewrite Hn'.
  destruct (Hvals _ _ Hn') as [(e' & He' & Hd' & Hname')|Hempty];
    [|by rewrite lookup_empty in Hempty].
  assert (e' = e) as ->.
  { apply (NoDup_map_inj descriptor data); [done | done | done | congruence]. }
  congruence.
Qed.

Lemma TypeNameLookup_new_data_a : TypeNameLookup_new data_a = Ok this_a.
Proof. vm_compute. reflexivity. Qed.

(** X3, witness: the name [.pkg.Outer] in the table of file [a]. *)
Lemma resolveTypeName_entries_witness :
  (resolveTypeName this_a ".pkg.Outer" = Ok Outer ↔
   ∃ e, e ∈ data_a ∧ entry_name e = Ok (normalizeTypeName ".pkg.Outer")
        ∧ descriptor e = Outer)
  ∧ (peekTypeName this_a ".pkg.Outer" = Some Outer ↔
     ∃ e, e ∈ data_a ∧ entry_name e = Ok (normalizeTypeName ".pkg.Outer")
          ∧ descriptor e = Outer).
Proof.
  exact (resolveTypeName_entries data_a this_a TypeNameLookup_new_data_a
           ".pkg.Outer" Outer).
Defined.

(** X4, witness: the file descriptor is unknown to the table of file [a]. *)
Lemma makeTypeName_known_witness :
  ((∃ n, makeTypeName this_a FileA = Ok n) ↔
   ∃ e, e ∈ data_a ∧ descriptor e = FileA)
  ∧ (makeTypeName this_a FileA = Err UnknownDescriptor ↔
     ¬ ∃ e, e ∈ data_a ∧ descriptor e = FileA)
  ∧ (∀ n, makeTypeName this_a FileA = Ok n →
          ∃ e, e ∈ data_a ∧ descriptor e = FileA ∧ entry_name e = Ok n).
Proof.
  exact (makeTypeName_known data_a this_a TypeNameLookup_new_data_a FileA).
Defined.

(** X5, witness: the entry of [Inner]. *)
Lemma resolveTypeName_period_makeTypeName_witness :
  ∃ n, makeTypeName this_a Inner = Ok n
       ∧ resolveTypeName this_a (String "." n) = Ok Inner
       ∧ peekTypeName this_a (String "." n) = Some Inner.
Proof.
  apply (resolveTypeName_period_makeTypeName data_a this_a
           TypeNameLookup_new_data_a (mkEntry Inner [FileA; Outer])).
  right; left.
Defined.

(** X6, witness: [.pkg.Outer.Inner] resolves to [Inner]. *)
Lemma makeTypeName_resolveTypeName_witness :
  makeTypeName this_a Inner = Ok (normalizeTypeName ".pkg.Outer.Inner").
Proof.
  apply (makeTypeName_resolveTypeName data_a this_a TypeNameLookup_new_data_a).
  - refine (bool_decide_unpack _ _). vm_compute. exact I.
  - vm_compute. reflexivity.
Defined.

(** ** Building in two steps *)

Lemma TypeNameLookup_new_app (data more : list Entry) :
  TypeNameLookup_new (data ++ more) =
    match constructor_loop data ∅ ∅ with
    | Ok maps =>
        maps' ← constructor_loop more maps.1 maps.2;
        Ok (mkLookup maps'.1 maps'.2)
    | Err x => Err x
    end.
Proof.
  unfold TypeNameLookup_new. rewrite constructor_loop_app.
  by destruct (constructor_loop data ∅ ∅).
Qed.

(** X7. The constructor stops at the first failure: a failure on a list of
    entries is the failure on every extension of the list. When the
    extended list builds a table, so does the list itself, and everything
    that resolves or has a name in the smaller table resolves to the same
    descriptor or has a name in the larger one. *)
Theorem TypeNameLookup_new_prefix (data more : list Entry) :
  (∀ x, TypeNameLookup_new data = Err x →
        TypeNameLookup_new (data ++ more) = Err x)
  ∧ (∀ this', TypeNameLookup_new (data ++ more) = Ok this' →
       ∃ this,
         TypeNameLookup_new data = Ok this
         ∧ (∀ n d, resolveTypeName this n = Ok d →
                   resolveTypeName this' n = Ok d)
         ∧ (∀ d n, makeTypeName this d = Ok n →
                   ∃ n', makeTypeName this' d = Ok n')).
Proof.
  rewrite TypeNameLookup_new_app. split.
  - intros x Hx%TypeNameLookup_new_failure. by rewrite Hx.
  - intros this' Hnew.
    destruct (constructor_loop data ∅ ∅) as [[names reverse]|x] eqn:Hloop;
      [|discriminate].
    cbn [fst snd] in Hnew.
    destruct (constructor_loop more names reverse) as [[names' reverse']|x] eqn:Hmore;
      [|discriminate].
    injection Hnew as <-.
    exists (mkLookup names reverse). split.
    { by apply TypeNameLookup_new_maps. }
    split.
    + intros n d. unfold resolveTypeName. cbn [_names].
      destruct (names !! normalizeTypeName n) as [d'|] eqn:Hn; [|discriminate].
      intros [= ->].
      assert (names' !! normalizeTypeName n = Some d) as ->; [|reflexivity].
      apply (constructor_loop_names _ _ _ _ _ Hmore). by right.
    + intros d n. unfold makeTypeName. cbn [_reverse].
      destruct (reverse !! d) as [n0|] eqn:Hd; [|discriminate]. intros _.
      destruct (constructor_loop_reverse _ _ _ _ _ Hmore) as [Hkeys _].
      destruct (proj2 (Hkeys d)) as [n' ->]; [right; by eexists | by eexists].
Qed.

Lemma constructor_loop_size (data : list Entry)
  (names names' : gmap string AnyDescriptorProto)
  (reverse reverse' : gmap AnyDescriptorProto string) :
  constructor_loop data names reverse = Ok (names', reverse') →
  size names' = size names + List.length data
  ∧ (size reverse' ≤ size reverse + List.length data)%nat.
Proof.
  revert names reverse. induction data as [|e data IH]; intros names reverse.
  { intros [= <- <-]. simpl. lia. }
  rewrite constructor_loop_cons.
  destruct (entry_name e) as [n|x]; [|discriminate].
  destruct (names !! n) eqn:Hn; [discriminate|].
  intros [Hsize Hrev]%IH.
  rewrite map_size_insert_None in Hsize by done.
  pose proof (map_size_insert (descriptor e) n reverse) as Hins.
  destruct (reverse !! descriptor e); unfold id in Hins; cbn [List.length]; lia.
Qed.

(** X8. A constructed table has one forward key for each entry, and at
    most as many reverse keys as entries. *)
Theorem TypeNameLookup_new_size (data : list Entry) (this : TypeNameLookup) :
  TypeNameLookup_new data = Ok this →
  size (_names this) = List.length data
  ∧ (size (_reverse this) ≤ List.length data)%nat.
Proof.
  intros Hnew%TypeNameLookup_new_maps.
  apply constructor_loop_size in Hnew. rewrite !map_size_empty in Hnew. lia.
Qed.

(** X8, witness: the two entries of file [a]. *)
Lemma TypeNameLookup_new_size_witness :
  size (_names this_a) = List.length data_a
  ∧ (size (_reverse this_a) ≤ List.length data_a)%nat.
Proof.
  exact (TypeNameLookup_new_size data_a this_a TypeNameLookup_new_data_a).
Defined.

(** ** The flat list shape of [from] *)

Lemma root_entries_nil (a : list AnyDescriptorProto) :
  Forall (fun d => isAnyTypeDescriptorProto (Some d) = false) a →
  root_entries a = [].
Proof.
  unfold root_entries. induction 1 as [|d a Hd _ IH]; [reflexivity|].
  rewrite filter_cons_False by congruence. exact IH.
Qed.

Lemma root_entries_malformed (a : list AnyDescriptorProto) :
  Exists (fun d => isAnyTypeDescriptorProto (Some d) = true) a →
  TypeNameLookup_new (root_entries a) = Err MalformedChain.
Proof.
  intros Hex. apply TypeNameLookup_new_failure.
  unfold root_entries. induction Hex as [d a Hd|d a _ IH].
  - rewrite filter_cons_True by done. cbn [map].
    rewrite constructor_loop_cons. unfold entry_name. cbn [ancestors descriptor app].
    by rewrite composeTypeName_singleton.
  - destruct (isAnyTypeDescriptorProto (Some d)) eqn:Hd.
    + rewrite filter_cons_True by done. cbn [map].
      rewrite constructor_loop_cons. unfold entry_name.
      cbn [ancestors descriptor app].
      by rewrite composeTypeName_singleton.
    + rewrite filter_cons_False by congruence. exact IH.
Qed.

(** X9. The three outcomes of [from] on a list and a parent function.
    With a nameable descriptor that has a parent, the call does not end.
    Otherwise, with a nameable descriptor, the call fails with
    [MalformedChain], the chain of a descriptor without parent having no
    file. Otherwise the call returns the empty table. So the only table this
    shape ever returns is the empty one, on a list without nameable
    descriptor. *)
Theorem from_flat_list_outcomes
  (fuel : nat) (a : list AnyDescriptorProto) (b : DescriptorParentFn) :
  (Exists (fun d => isAnyTypeDescriptorProto (Some d) = true ∧ is_Some (b d)) a →
   from fuel (inl a) (Some b) = None)
  ∧ (Forall (fun d => isAnyTypeDescriptorProto (Some d) = true → b d = None) a →
     Exists (fun d => isAnyTypeDescriptorProto (Some d) = true) a →
     from fuel (inl a) (Some b) = Some (Err MalformedChain))
  ∧ (Forall (fun d => isAnyTypeDescriptorProto (Some d) = false) a →
     from fuel (inl a) (Some b) = Some (Ok (mkLookup ∅ ∅)))
  ∧ (∀ this, from fuel (inl a) (Some b) = Some (Ok this) →
       this = mkLookup ∅ ∅
       ∧ Forall (fun d => isAnyTypeDescriptorProto (Some d) = false) a).
Proof.
  assert (Hloop :
    Exists (fun d => isAnyTypeDescriptorProto (Some d) = true ∧ is_Some (b d)) a →
    from fuel (inl a) (Some b) = None).
  { intros (d & Hd & Hn & Hb)%Exists_exists. cbn [from].
    by rewrite (collect_diverges fuel b a [] d). }
  assert (Hroots :
    Forall (fun d => isAnyTypeDescriptorProto (Some d) = true → b d = None) a →
    from fuel (inl a) (Some b) = Some (TypeNameLookup_new (root_entries a))).
  { intros Hall. cbn [from]. rewrite (collect_roots fuel b a []); [done|].
    intros d Hd. by apply (proj1 (Forall_forall _ _) Hall). }
  assert (Hfail :
    Forall (fun d => isAnyTypeDescriptorProto (Some d) = true → b d = None) a →
    Exists (fun d => isAnyTypeDescriptorProto (Some d) = true) a →
    from fuel (inl a) (Some b) = Some (Err MalformedChain)).
  { intros Hall Hex. by rewrite (Hroots Hall), root_entries_malformed. }
  assert (Hempty :
    Forall (fun d => isAnyTypeDescriptorProto (Some d) = false) a →
    from fuel (inl a) (Some b) = Some (Ok (mkLookup ∅ ∅))).
  { intros Hnone. rewrite Hroots.
    - by rewrite root_entries_nil.
    - eapply Forall_impl; [exact Hnone|]. intros d Hd. congruence. }
  split; [exact Hloop|]. split; [exact Hfail|]. split; [exact Hempty|].
  intros this Hthis.
  destruct (decide (Exists (fun d => isAnyTypeDescriptorProto (Some d) = true
                                     ∧ is_Some (b d)) a)) as [Hex|Hno].
  { rewrite (Hloop Hex) in Hthis. discriminate. }
  assert (Hall : Forall (fun d => isAnyTypeDescriptorProto (Some d) = true
                                  → b d = None) a).
  { apply not_Exists_Forall in Hno; [|solve_decision].
    eapply Forall_impl; [exact Hno|]. intros d Hd Hn.
    destruct (b d) eqn:Hb; [|reflexivity].
    destruct Hd. split; [exact Hn | by eexists]. }
  destruct (decide (Exists (fun d => isAnyTypeDescriptorProto (Some d) = true) a))
    as [Hex|Hnone].
  { rewrite (Hfail Hall Hex) in Hthis. discriminate. }
  assert (Hnot : Forall (fun d => isAnyTypeDescriptorProto (Some d) = false) a).
  { apply not_Exists_Forall in Hnone; [|solve_decision].
    eapply Forall_impl; [exact Hnone|]. intros d Hd.
    destruct (isAnyTypeDescriptorProto (Some d)) eqn:Hn; [|reflexivity].
    destruct Hd. exact Hn. }
  rewrite (Hempty Hnot) in Hthis. by injection Hthis as <-.
Qed.

(** X9, witness: a list of two files, and the list of the failing input of
    C1 without its nested message's parent. *)
Lemma from_flat_list_outcomes_witness :
  from 0 (inl [FileA; FileB]) (Some parentOf_example)
    = Some (Ok (mkLookup ∅ ∅))
  ∧ from 0 (inl [FileA; DupA]) (Some parentOf_example)
    = Some (Err MalformedChain)
  ∧ from 7 (inl [FileA; Outer]) (Some parentOf_example) = None.
Proof.
  split; [|split].
  - apply (proj1 (proj2 (proj2
             (from_flat_list_outcomes 0 [FileA; FileB] parentOf_example)))).
    by repeat constructor.
  - apply (proj1 (proj2
             (from_flat_list_outcomes 0 [FileA; DupA] parentOf_example))).
    + repeat constructor; intros; reflexivity || discriminate.
    + right. by left.
  - apply (proj1 (from_flat_list_outcomes 7 [FileA; Outer] parentOf_example)).
    right. left. split; [reflexivity | by eexists].
Defined.

(** ** Names of nested descriptors *)

Lemma string_append_assoc (s t u : string) :
  String.append (String.append s t) u = String.append s (String.append t u).
Proof.
  induction s as [|c s IH]; [reflexivity|].
  change (String c (String.append (String.append s t) u)
          = String c (String.append s (String.append t u))).
  by rewrite IH.
Qed.

Lemma join_snoc (sep : string) (segments : list string) (x : string) :
  segments ≠ [] →
  join sep (segments ++ [x])
  = String.append (join sep segments) (String.append sep x).
Proof.
  unfold join. induction segments as [|s segments IH]; [done|]. intros _.
  destruct segments as [|t segments]; [reflexivity|].
  change (String.append s (String.append sep
            (String.concat sep ((t :: segments) ++ [x])))
          = String.append
              (String.append s (String.append sep
                 (String.concat sep (t :: segments))))
              (String.append sep x)).
  rewrite IH by done. by rewrite !string_append_assoc.
Qed.

Lemma composeTypeName_wellformed (first : AnyDescriptorProto)
  (items : list AnyDescriptorProto) (target : AnyDescriptorProto)
  (names : list string) :
  FileDescriptorProto_is (Some first) = true →
  isAnyTypeDescriptorProto (Some target) = true →
  map name (items ++ [target]) = map Some names →
  composeTypeName (first :: items ++ [target])
  = Ok (join "." (package_segment first ++ names)).
Proof.
  intros Hf Ht Hn.
  rewrite composeTypeName_cons by (by destruct items).
  rewrite Hf, last_snoc, Ht. cbn [assert mbind result_bind].
  destruct (compose_parts_cases first (items ++ [target]))
    as [(names' & Hm & Hp)|[(d & Hd & Hnone) _]].
  - rewrite Hp. rewrite Hn in Hm.
    apply (inj (map Some)) in Hm. by subst.
  - by destruct (names_defined _ _ _ Hn Hd).
Qed.

(** X10. The name of a nested descriptor extends the name of the chain it
    is nested in: when a chain composes to a name, the chain with one more
    nameable descriptor at its end composes to that name, a period and the
    local name of the added descriptor. In the longer chain the former
    target is only asked for its name. *)
Theorem composeTypeName_nested (chain : list AnyDescriptorProto)
  (parent child : AnyDescriptorProto) (s n : string) :
  composeTypeName (chain ++ [parent]) = Ok s →
  isAnyTypeDescriptorProto (Some child) = true →
  name child = Some n →
  composeTypeName (chain ++ [parent; child])
  = Ok (String.append s (String.append "." n)).
Proof.
  intros Hs Hchild Hn.
  destruct (composeTypeName_cases (chain ++ [parent]))
    as [[He _]|(first & rest & names & Hds & Hnames & Hok & Hwf)]; [congruence|].
  rewrite Hok in Hs. injection Hs as <-.
  destruct chain as [|first' items].
  { cbn [app] in Hok. rewrite composeTypeName_singleton in Hok. discriminate. }
  simpl in Hds. injection Hds as -> <-.
  assert (Hf : FileDescriptorProto_is (Some first) = true).
  { destruct (FileDescriptorProto_is (Some first)) eqn:Hf; [reflexivity|].
    destruct Hwf. right; left. exact Hf. }
  change ((first :: items) ++ [parent; child])
    with (first :: (items ++ [parent; child])).
  replace (items ++ [parent; child]) with ((items ++ [parent]) ++ [child])
    by (by rewrite <- app_assoc).
  rewrite (composeTypeName_wellformed first (items ++ [parent]) child
             (names ++ [n])); try done.
  - rewrite app_assoc, join_snoc; [reflexivity|].
    destruct names as [|n0 names]; [by destruct items | by destruct (package_segment first)].
  - rewrite map_app, Hnames, map_app. simpl. by rewrite Hn.
Qed.

(** X10, witness: [Inner] nested in [Outer] of file [a]. *)
Lemma composeTypeName_nested_witness :
  composeTypeName ([FileA] ++ [Outer; Inner]) = Ok "pkg.Outer.Inner".
Proof.
  exact (composeTypeName_nested [FileA] Outer Inner "pkg.Outer" "Inner"
           eq_refl eq_refl eq_refl).
Defined.

(** ** Names that normalize alike *)

Ltac dot_contra :=
  exfalso;
  match goal with
  | H : startsWith (String "." _) "." = false |- _ =>
      rewrite startsWith_dot_cons, bool_decide_eq_true_2 in H by reflexivity;
      discriminate
  end.

(** X11. Two names normalize to the same name, and so are the same query
    for [resolveTypeName] and [peekTypeName], exactly when they are equal or
    one is the other, itself without leading period, behind one period. *)
Theorem normalizeTypeName_eq_iff (y z : string) :
  normalizeTypeName y = normalizeTypeName z ↔
  y = z
  ∨ (y = String "." z ∧ startsWith z "." = false)
  ∨ (z = String "." y ∧ startsWith y "." = false).
Proof.
  assert (Hcases : ∀ x, (startsWith x "." = false ∧ normalizeTypeName x = x)
                        ∨ (∃ r, x = String "." r ∧ normalizeTypeName x = r)).
  { intros [|c x]; [by left|].
    destruct (decide (c = "."%char)) as [->|Hc].
    - right. exists x. by rewrite normalizeTypeName_dot.
    - left. assert (Hs : startsWith (String c x) "." = false).
      { rewrite startsWith_dot_cons. by apply bool_decide_eq_false_2. }
      by rewrite (normalizeTypeName_plain _ Hs). }
  destruct (Hcases y) as [[Hy ->]|(ry & -> & ->)];
    destruct (Hcases z) as [[Hz ->]|(rz & -> & ->)].
  - split; [by left|]. intros [H|[[-> _]|[-> _]]]; [done | dot_contra | dot_contra].
  - split.
    + intros ->. right; right. done.
    + intros [->|[[_ H]|[[= ->] _]]]; [dot_contra | dot_contra | done].
  - split.
    + intros ->. right; left. done.
    + intros [<-|[[[= ->] _]|[_ H]]]; [dot_contra | done | dot_contra].
  - split.
    + intros ->. by left.
    + intros [[= ->]|[[_ H]|[_ H]]]; [done | dot_contra | dot_contra].
Qed.

(** X2, witness: the failure of an entry listed twice is one of the two. *)
Lemma TypeNameLookup_new_malformed_witness :
  DuplicateName = MalformedChain ∨ DuplicateName = DuplicateName.
Proof.
  apply (proj2 (TypeNameLookup_new_malformed_iff
                  [mkEntry Outer [FileA]; mkEntry Outer [FileA]])).
  vm_compute. reflexivity.
Defined.

(** X7, witness: the table of [Outer] alone and the table of file [a]. *)
Lemma TypeNameLookup_new_prefix_witness :
  ∃ this,
    TypeNameLookup_new [mkEntry Outer [FileA]] = Ok this
    ∧ (∀ n d, resolveTypeName this n = Ok d → resolveTypeName this_a n = Ok d)
    ∧ (∀ d n, makeTypeName this d = Ok n → ∃ n', makeTypeName this_a d = Ok n').
Proof.
  apply (proj2 (TypeNameLookup_new_prefix
                  [mkEntry Outer [FileA]] [mkEntry Inner [FileA; Outer]])).
  vm_compute. reflexivity.
Defined.

(** * The JSON form of Duration *)

(** ** Strings *)

Lemma string_append_cons (c : ascii) (s t : string) :
  String.append (String c s) t = String c (String.append s t).
Proof. reflexivity. Qed.

Lemma string_append_nil (t : string) : String.append "" t = t.
Proof. reflexivity. Qed.

Lemma string_append_nil_r (s : string) : String.append s "" = s.
Proof.
  induction s as [|c s IH]; [reflexivity|].
  by rewrite string_append_cons, IH.
Qed.

Lemma string_length_append (s t : string) :
  String.length (String.append s t) = String.length s + String.length t.
Proof.
  induction s as [|c s IH]; [reflexivity|].
  rewrite string_append_cons. simpl. by rewrite IH.
Qed.

(** A string is its first [n] characters followed by the others. *)
Lemma substring_split (n : nat) (s : string) :
  (n ≤ String.length s)%nat →
  s = String.append (substring_between 0 n s) (substring_from n s).
Proof.
  unfold substring_between, substring_from. rewrite Nat.sub_0_r.
  revert s. induction n as [|n IH]; intros s Hn.
  - rewrite Nat.sub_0_r. destruct s; [reflexivity|].
    cbn [String.substring]. rewrite string_append_nil.
    symmetry. apply (substring_whole (String a s)).
  - destruct s as [|c s]; [simpl in Hn; lia|].
    cbn [String.substring String.length Nat.sub].
    rewrite string_append_cons. f_equal. apply IH. simpl in Hn. lia.
Qed.

Lemma substring_between_length (n : nat) (s : string) :
  (n ≤ String.length s)%nat → String.length (substring_between 0 n s) = n.
Proof.
  unfold substring_between. rewrite Nat.sub_0_r.
  revert s. induction n as [|n IH]; intros s Hn.
  - by destruct s.
  - destruct s as [|c s]; [simpl in Hn; lia|].
    cbn [String.substring String.length]. f_equal. apply IH. simpl in Hn. lia.
Qed.

(** ** Digits *)

Lemma all_digits_append (s t : string) :
  all_digits (String.append s t) = all_digits s && all_digits t.
Proof.
  induction s as [|c s IH]; [reflexivity|].
  rewrite string_append_cons. cbn [all_digits]. rewrite IH.
  by rewrite andb_assoc.
Qed.

Lemma take_digits_append (s t : string) :
  all_digits s = true → no_digit_ahead t = true →
  take_digits (String.append s t) = (s, t).
Proof.
  intros Hs Ht. induction s as [|c s IH].
  - rewrite string_append_nil. destruct t as [|c t]; [reflexivity|].
    cbn [take_digits]. cbn [no_digit_ahead] in Ht.
    by destruct (is_digit c).
  - cbn [all_digits] in Hs. apply andb_true_iff in Hs as [Hc Hs].
    rewrite string_append_cons. cbn [take_digits]. by rewrite Hc, (IH Hs).
Qed.

Lemma all_digits_uint (d : uint) :
  all_digits (NilEmpty.string_of_uint d) = true.
Proof. induction d; [reflexivity|..]; exact IHd. Qed.

Lemma string_of_uint_length (d : uint) :
  String.length (NilEmpty.string_of_uint d) = nb_digits d.
Proof. induction d; [reflexivity|..]; cbn; by rewrite IHd. Qed.

(** ** Decimal expansions and magnitudes *)

Lemma usize_nb_digits (d : uint) :
  DecimalPos.Unsigned.usize d = N.of_nat (nb_digits d).
Proof.
  induction d; [reflexivity|..];
    cbn [DecimalPos.Unsigned.usize nb_digits]; rewrite IHd; lia.
Qed.

Lemma of_uint_step (d : uint) :
  Pos.of_uint d
  = (DecimalPos.Unsigned.hd d * 10 ^ DecimalPos.Unsigned.usize (DecimalPos.Unsigned.tl d)
     + Pos.of_uint (DecimalPos.Unsigned.tl d))%N.
Proof.
  rewrite !DecimalPos.Unsigned.of_uint_alt.
  destruct d; [reflexivity|..];
    cbn [DecimalPos.Unsigned.hd DecimalPos.Unsigned.tl];
    unfold Decimal.rev at 1; cbn [Decimal.revapp];
    rewrite DecimalPos.Unsigned.of_lu_revapp; cbn [DecimalPos.Unsigned.of_lu]; lia.
Qed.

Lemma hd_le_9 (d : uint) : (DecimalPos.Unsigned.hd d ≤ 9)%N.
Proof. destruct d; cbn; lia. Qed.

Lemma usize_tl (d : uint) :
  d ≠ Nil → DecimalPos.Unsigned.usize d = N.succ (DecimalPos.Unsigned.usize (DecimalPos.Unsigned.tl d)).
Proof. by destruct d. Qed.

Lemma of_uint_upper (d : uint) : (Pos.of_uint d < 10 ^ DecimalPos.Unsigned.usize d)%N.
Proof.
  induction d;
    [reflexivity|..];
    rewrite of_uint_step;
    cbn [DecimalPos.Unsigned.hd DecimalPos.Unsigned.tl DecimalPos.Unsigned.usize];
    rewrite N.pow_succ_r'; lia.
Qed.

Lemma of_uint_lower (d : uint) :
  DecimalPos.Unsigned.hd d ≠ 0%N →
  (10 ^ DecimalPos.Unsigned.usize (DecimalPos.Unsigned.tl d) ≤ Pos.of_uint d)%N.
Proof.
  intros Hhd. rewrite of_uint_step.
  assert (1 ≤ DecimalPos.Unsigned.hd d)%N by lia. nia.
Qed.

Lemma to_uint_normal (p : positive) : unorm (Pos.to_uint p) = Pos.to_uint p.
Proof.
  rewrite <- (DecimalPos.Unsigned.to_of (Pos.to_uint p)), DecimalPos.Unsigned.of_to. reflexivity.
Qed.

Lemma to_uint_hd (p : positive) : DecimalPos.Unsigned.hd (Pos.to_uint p) ≠ 0%N.
Proof.
  pose proof (to_uint_normal p) as Hnorm.
  pose proof (DecimalPos.Unsigned.to_uint_nonzero p) as Hnz.
  pose proof (DecimalPos.Unsigned.to_uint_nonnil p) as Hnn.
  destruct (Pos.to_uint p) as [|d| | | | | | | | |]; try done.
  exfalso. unfold unorm in Hnorm. cbn [nzhead] in Hnorm.
  pose proof (DecimalFacts.nb_digits_nzhead d) as Hlen.
  destruct (nzhead d) eqn:Hd.
  - injection Hnorm as <-. by destruct Hnz.
  - rewrite Hnorm in Hlen. cbn [nb_digits] in Hlen. lia.
  - discriminate.
  - discriminate.
  - discriminate.
  - discriminate.
  - discriminate.
  - discriminate.
  - discriminate.
  - discriminate.
  - discriminate.
Qed.

Lemma integer_toString_pos (p : positive) :
  integer_toString (Z.pos p) = NilEmpty.string_of_uint (Pos.to_uint p).
Proof.
  unfold integer_toString. cbn [Z.to_int NilZero.string_of_int].
  pose proof (DecimalPos.Unsigned.to_uint_nonnil p) as Hnn.
  unfold NilZero.string_of_uint. by destruct (Pos.to_uint p).
Qed.

Lemma integer_toString_neg (p : positive) :
  integer_toString (Z.neg p)
  = String "-" (NilEmpty.string_of_uint (Pos.to_uint p)).
Proof.
  unfold integer_toString. cbn [Z.to_int NilZero.string_of_int].
  pose proof (DecimalPos.Unsigned.to_uint_nonnil p) as Hnn.
  unfold NilZero.string_of_uint. by destruct (Pos.to_uint p).
Qed.

(** The number of digits of a positive integer against its magnitude. *)
Lemma integer_toString_length (p : positive) (k : nat) :
  (String.length (integer_toString (Z.pos p)) ≤ k)%nat
  ↔ (Z.pos p < 10 ^ Z.of_nat k)%Z.
Proof.
  rewrite integer_toString_pos, string_of_uint_length.
  pose proof (of_uint_upper (Pos.to_uint p)) as Hup.
  pose proof (of_uint_lower (Pos.to_uint p) (to_uint_hd p)) as Hlow.
  rewrite DecimalPos.Unsigned.of_to in Hup, Hlow.
  rewrite usize_tl in Hup by apply DecimalPos.Unsigned.to_uint_nonnil.
  assert (Hdigits : N.of_nat (nb_digits (Pos.to_uint p))
                    = N.succ (DecimalPos.Unsigned.usize (DecimalPos.Unsigned.tl (Pos.to_uint p)))).
  { rewrite <- usize_nb_digits. apply usize_tl, DecimalPos.Unsigned.to_uint_nonnil. }
  set (m := DecimalPos.Unsigned.usize (DecimalPos.Unsigned.tl (Pos.to_uint p))) in *.
  assert (Hk : (10 ^ Z.of_nat k = Z.of_N (10 ^ N.of_nat k))%Z).
  { rewrite N2Z.inj_pow. by rewrite nat_N_Z. }
  rewrite Hk. split.
  - intros Hle.
    assert (N.succ m ≤ N.of_nat k)%N by lia.
    assert (10 ^ N.succ m ≤ 10 ^ N.of_nat k)%N by (apply N.pow_le_mono_r; lia).
    lia.
  - intros Hlt.
    assert (10 ^ m < 10 ^ N.of_nat k)%N by lia.
    assert (m < N.of_nat k)%N by (apply (N.pow_lt_mono_r_iff 10); lia).
    lia.
Qed.

Lemma zeros_S (n : nat) : zeros (S n) = String "0" (zeros n).
Proof. unfold zeros. by destruct n. Qed.

Lemma zeros_length (n : nat) : String.length (zeros n) = n.
Proof.
  induction n as [|n IH]; [reflexivity|]. rewrite zeros_S. simpl. by rewrite IH.
Qed.

Lemma all_digits_zeros (n : nat) : all_digits (zeros n) = true.
Proof. induction n as [|n IH]; [reflexivity|]. by rewrite zeros_S. Qed.

Lemma repeat_string_zeros (n : nat) :
  repeat_string "0" (Z.of_nat n) = Return (zeros n).
Proof.
  unfold repeat_string, zeros.
  destruct (Z.ltb_spec (Z.of_nat n) 0); [lia|]. by rewrite Nat2Z.id.
Qed.

Lemma repeat_string_cases (count : Z) :
  ((count < 0)%Z ∧ repeat_string "0" count = Throw RangeError)
  ∨ ((0 ≤ count)%Z ∧ repeat_string "0" count = Return (zeros (Z.to_nat count))).
Proof.
  unfold repeat_string, zeros.
  destruct (Z.ltb_spec count 0); [left | right]; split; (lia || reflexivity).
Qed.

Lemma uint_of_string_digits (s : string) :
  all_digits s = true →
  ∃ d, NilEmpty.uint_of_string s = Some d ∧ nb_digits d = String.length s.
Proof.
  induction s as [|c s IH]; intros Hs.
  { exists Nil. by split. }
  cbn [all_digits] in Hs. apply andb_true_iff in Hs as [Hc Hs].
  destruct (IH Hs) as (d & Hd & Hlen).
  cbn [NilEmpty.uint_of_string String.length]. rewrite Hd.
  destruct c as [[|] [|] [|] [|] [|] [|] [|] [|]]; try discriminate Hc;
    eexists; (split; [reflexivity | cbn [nb_digits]; by rewrite Hlen]).
Qed.

Lemma uint_of_string_zeros (n : nat) (s : string) (d : uint) :
  NilEmpty.uint_of_string s = Some d →
  NilEmpty.uint_of_string (String.append (zeros n) s) = Some (Nat.iter n D0 d).
Proof.
  intros Hd. induction n as [|n IH]; [exact Hd|].
  rewrite zeros_S, string_append_cons.
  cbn [NilEmpty.uint_of_string]. by rewrite IH.
Qed.

Lemma of_uint_zeros (n : nat) (d : uint) :
  Z.of_uint (Nat.iter n D0 d) = Z.of_uint d.
Proof. induction n as [|n IH]; [reflexivity | exact IH]. Qed.

Lemma of_uint_bound (d : uint) :
  (0 ≤ Z.of_uint d < 10 ^ Z.of_nat (nb_digits d))%Z.
Proof.
  unfold Z.of_uint. pose proof (of_uint_upper d) as Hup.
  rewrite usize_nb_digits in Hup.
  assert (Hk : (10 ^ Z.of_nat (nb_digits d)
                = Z.of_N (10 ^ N.of_nat (nb_digits d)))%Z).
  { rewrite N2Z.inj_pow. by rewrite nat_N_Z. }
  rewrite Hk. lia.
Qed.

Lemma decimal_value_toString (z : Z) :
  decimal_value (integer_toString z) = Some z.
Proof.
  unfold decimal_value, integer_toString.
  rewrite NilZero.isi.
  - cbn. by rewrite DecimalZ.of_to.
  - destruct z; cbn; [discriminate| |discriminate].
    intros [= H]. by apply DecimalPos.Unsigned.to_uint_nonnil in H.
  - destruct z; cbn; [discriminate|discriminate|].
    intros [= H]. by apply DecimalPos.Unsigned.to_uint_nonnil in H.
Qed.

(** ** The regular expression *)

Lemma take_digits_spec (s d r : string) :
  take_digits s = (d, r) →
  s = String.append d r ∧ all_digits d = true ∧ no_digit_ahead r = true.
Proof.
  revert d r. induction s as [|c s IH]; intros d r.
  { intros [= <- <-]. by repeat split. }
  cbn [take_digits]. destruct (is_digit c) eqn:Hc.
  - destruct (take_digits s) as [d' r'] eqn:Hs. intros [= <- <-].
    destruct (IH d' r' eq_refl) as (-> & Hd & Hr).
    repeat split; [|exact Hr]. cbn [all_digits]. by rewrite Hc, Hd.
  - intros [= <- <-]. repeat split. cbn [no_digit_ahead]. by rewrite Hc.
Qed.

Lemma take_sign_minus (rest : string) : take_sign (String "-" rest) = ("-", rest).
Proof. reflexivity. Qed.

Lemma take_sign_other (c : ascii) (rest : string) :
  c ≠ "-"%char → take_sign (String c rest) = ("", String c rest).
Proof.
  intros Hc.
  destruct c as [[|] [|] [|] [|] [|] [|] [|] [|]]; try reflexivity.
  by destruct Hc.
Qed.

Lemma digit_not_minus (c : ascii) : is_digit c = true → c ≠ "-"%char.
Proof. intros Hc ->. discriminate Hc. Qed.

Lemma take_sign_digits (digits rest : string) :
  all_digits digits = true → digits ≠ "" →
  take_sign (String.append digits rest) = ("", String.append digits rest).
Proof.
  intros Hd Hne. destruct digits as [|c digits]; [done|].
  cbn [all_digits] in Hd. apply andb_true_iff in Hd as [Hc _].
  rewrite string_append_cons. by apply take_sign_other, digit_not_minus.
Qed.

Lemma eqb_nonempty (s : string) : s ≠ "" → String.eqb s "" = false.
Proof. intros Hs. by destruct s. Qed.

Lemma duration_match_text (sign secs : string) (fraction : option string)
  (rest : string) :
  duration_groups sign secs fraction →
  duration_match (duration_text sign secs fraction rest)
  = Some (sign, secs, fraction).
Proof.
  intros (Hsign & Hsecs & Hne & Hfrac).
  unfold duration_match, duration_text.
  assert (Hts : take_sign (String.append sign (String.append secs
                   match fraction with
                   | None => String "s" rest
                   | Some f => String "." (String.append f (String "s" rest))
                   end))
                = (sign, String.append secs
                     match fraction with
                     | None => String "s" rest
                     | Some f => String "." (String.append f (String "s" rest))
                     end)).
  { destruct Hsign as [-> | ->].
    - rewrite string_append_nil. by apply take_sign_digits.
    - apply take_sign_minus. }
  rewrite Hts.
  rewrite take_digits_append; [|exact Hsecs|by destruct fraction].
  rewrite (eqb_nonempty _ Hne).
  destruct fraction as [f|]; [|reflexivity].
  destruct Hfrac as [Hf Hfne].
  rewrite take_digits_append; [|exact Hf|reflexivity].
  by rewrite (eqb_nonempty _ Hfne).
Qed.

Lemma duration_match_inv (json sign secs : string) (fraction : option string) :
  duration_match json = Some (sign, secs, fraction) →
  duration_groups sign secs fraction
  ∧ ∃ rest, json = duration_text sign secs fraction rest.
Proof.
  unfold duration_match, duration_text, duration_groups.
  assert (Hts : ∃ sg r, take_sign json = (sg, r)
                        ∧ (sg = "" ∨ sg = "-") ∧ json = String.append sg r).
  { destruct json as [|c r]; [by exists "", ""; repeat split; try left|].
    destruct (decide (c = "-"%char)) as [->|Hc].
    - exists "-", r. repeat split. by right.
    - exists "", (String c r). rewrite take_sign_other by done.
      repeat split. by left. }
  destruct Hts as (sg & r & -> & Hsg & ->).
  destruct (take_digits r) as [d r1] eqn:Hd.
  destruct (take_digits_spec _ _ _ Hd) as (-> & Hdigits & _).
  destruct (String.eqb d "") eqn:Hne; [discriminate|].
  assert (d ≠ "") by (intros ->; discriminate Hne).
  destruct r1 as [|c r1]; [discriminate|].
  destruct (decide (c = "s"%char)) as [->|Hs].
  { intros [= <- <- <-]. split; [done|]. by exists r1. }
  destruct (decide (c = "."%char)) as [->|Hp].
  2:{ destruct c as [[|] [|] [|] [|] [|] [|] [|] [|]]; try discriminate;
        by (destruct Hs || destruct Hp). }
  destruct (take_digits r1) as [f r2] eqn:Hf.
  destruct (take_digits_spec _ _ _ Hf) as (-> & Hfdigits & _).
  destruct (String.eqb f "") eqn:Hfne; [discriminate|].
  assert (f ≠ "") by (intros ->; discriminate Hfne).
  destruct r2 as [|c r2]; [discriminate|].
  destruct (decide (c = "s"%char)) as [->|Hs'].
  - intros [= <- <- <-]. split; [done|]. by exists r2.
  - destruct c as [[|] [|] [|] [|] [|] [|] [|] [|]]; try discriminate.
    by destruct Hs'.
Qed.

(** ** Values of digit strings *)

Lemma decimal_app_to_list_cons (d d' : uint) (l : list digits) :
  to_list d = l → to_list (Decimal.app d d') = (l ++ to_list d')%list.
Proof. intros <-. apply DecimalFacts.app_spec. Qed.

Lemma uint_of_string_append (s t : string) (ds dt : uint) :
  NilEmpty.uint_of_string s = Some ds →
  NilEmpty.uint_of_string t = Some dt →
  NilEmpty.uint_of_string (String.append s t) = Some (Decimal.app ds dt).
Proof.
  revert ds. induction s as [|c s IH]; intros ds Hs Ht.
  { injection Hs as <-. by rewrite string_append_nil, Ht. }
  rewrite string_append_cons. cbn [NilEmpty.uint_of_string] in *.
  destruct (NilEmpty.uint_of_string s) as [ds'|] eqn:Hs'; [|discriminate].
  rewrite (IH ds' eq_refl Ht).
  apply uint_of_char_spec in Hs.
  destruct Hs as [[-> ->]|[[-> ->]|[[-> ->]|[[-> ->]|[[-> ->]|[[-> ->]
    |[[-> ->]|[[-> ->]|[[-> ->]|[-> ->]]]]]]]]]];
    cbn [uint_of_char]; f_equal; apply DecimalFacts.to_list_inj;
    cbn [to_list]; rewrite !DecimalFacts.app_spec; reflexivity.
Qed.

Lemma uint_of_string_zeros_alone (k : nat) :
  NilEmpty.uint_of_string (zeros k) = Some (Nat.iter k D0 Nil).
Proof.
  induction k as [|k IH]; [reflexivity|].
  rewrite zeros_S. cbn [NilEmpty.uint_of_string]. by rewrite IH.
Qed.

Lemma iter_mul_10 (k : nat) (v : Z) :
  Nat.iter k (Z.mul 10) v = (v * 10 ^ Z.of_nat k)%Z.
Proof.
  induction k as [|k IH]; [cbn; lia|].
  change (Nat.iter (S k) (Z.mul 10) v) with (10 * Nat.iter k (Z.mul 10) v)%Z.
  rewrite IH, Nat2Z.inj_succ, Z.pow_succ_r by lia. lia.
Qed.

Lemma digits_value_append_zeros (s : string) (k : nat) (v : Z) :
  digits_value s = Some v →
  digits_value (String.append s (zeros k)) = Some (v * 10 ^ Z.of_nat k)%Z.
Proof.
  unfold digits_value.
  destruct (NilEmpty.uint_of_string s) as [d|] eqn:Hd; [|discriminate].
  intros [= <-].
  rewrite (uint_of_string_append _ _ _ _ Hd (uint_of_string_zeros_alone k)).
  cbn [fmap option_fmap option_map].
  by rewrite DecimalZ.of_uint_iter_D0, iter_mul_10.
Qed.

Lemma digits_value_zeros_prefix (k : nat) (s : string) (v : Z) :
  digits_value s = Some v →
  digits_value (String.append (zeros k) s) = Some v.
Proof.
  unfold digits_value.
  destruct (NilEmpty.uint_of_string s) as [d|] eqn:Hd; [|discriminate].
  intros [= <-]. rewrite (uint_of_string_zeros _ _ _ Hd).
  cbn [fmap option_fmap option_map]. by rewrite of_uint_zeros.
Qed.

Lemma digits_value_toString (p : positive) :
  digits_value (integer_toString (Z.pos p)) = Some (Z.pos p).
Proof.
  rewrite integer_toString_pos. unfold digits_value.
  rewrite NilEmpty.usu. cbn [fmap option_fmap option_map].
  unfold Z.of_uint. by rewrite DecimalPos.Unsigned.of_to.
Qed.

Lemma digits_value_bound (s : string) (v : Z) :
  digits_value s = Some v →
  (0 ≤ v < 10 ^ Z.of_nat (String.length s))%Z.
Proof.
  unfold digits_value.
  destruct (NilEmpty.uint_of_string s) as [d|] eqn:Hd; [|discriminate].
  intros [= <-]. apply NilEmpty.sus in Hd. subst s.
  rewrite string_of_uint_length. apply of_uint_bound.
Qed.

Lemma digits_value_digits (s : string) :
  all_digits s = true → ∃ v, digits_value s = Some v.
Proof.
  intros (d & Hd & _)%uint_of_string_digits.
  unfold digits_value. rewrite Hd. by eexists.
Qed.

Lemma parseInt_signed (sign s : string) (v : Z) :
  sign = "" ∨ sign = "-" →
  all_digits s = true → s ≠ "" →
  digits_value s = Some v →
  parseInt (String.append sign s) = Some (sign_factor sign * v)%Z.
Proof.
  intros Hsign Hs Hne Hv. unfold parseInt, digits_value in *.
  assert (Htd : take_digits s = (s, "")).
  { rewrite <- (string_append_nil_r s) at 1. by apply take_digits_append. }
  assert (Hnz : NilZero.uint_of_string s = NilEmpty.uint_of_string s).
  { by destruct s. }
  destruct (NilEmpty.uint_of_string s) as [d|] eqn:Hd; [|discriminate].
  injection Hv as <-.
  destruct Hsign as [-> | ->].
  - rewrite string_append_nil. destruct s as [|c s']; [done|].
    cbn [all_digits] in Hs. apply andb_true_iff in Hs as [Hc _].
    assert (Hplain : ∀ r, match String c r with
                          | String "-" rest => (true, rest)
                          | String "+" rest => (false, rest)
                          | _ => (false, String c r)
                          end = (false, String c r)).
    { intros r.
      destruct c as [[|] [|] [|] [|] [|] [|] [|] [|]];
        try discriminate Hc; reflexivity. }
    rewrite Hplain, Htd, Hnz. unfold sign_factor. cbn [String.eqb]. f_equal; lia.
  - rewrite string_append_cons, string_append_nil.
    rewrite Htd, Hnz. unfold sign_factor. f_equal; cbn; lia.
Qed.

(** ** What the two methods compute *)

Lemma safe_of_range (z : Z) :
  seconds_in_range z → (- 2 ^ 53 < z < 2 ^ 53)%Z.
Proof. unfold seconds_in_range. lia. Qed.

Lemma range_check (z : Z) :
  ((z >? 315576000000) || (z <? -315576000000))%Z = false
  ↔ seconds_in_range z.
Proof. unfold seconds_in_range. lia. Qed.

(** [internalJsonWrite] with an exact [PbLong], on safe seconds. *)
Lemma internalJsonWrite_exact (L : PbLongImpl) (message : Duration) :
  PbLong_exact L → (- 2 ^ 53 < seconds message < 2 ^ 53)%Z →
  internalJsonWrite L message =
    if ((seconds message >? 315576000000)
        || (seconds message <? -315576000000))%Z
    then Throw ValueOutOfRange
    else
      text ←
        (if negb (nanos message =? 0)%Z
         then
           pad ← repeat_string "0"
                   (9 - Z.of_nat (String.length
                                    (integer_toString (Z.abs (nanos message)))));
           Return (seconds_text message +:+ "." +:+
                   trim_zeros (pad +:+ integer_toString (Z.abs (nanos message))))
         else Return (seconds_text message));
      Return (text +:+ "s").
Proof.
  intros [Hbig _] Hsafe. unfold internalJsonWrite.
  destruct (Hbig _ Hsafe) as (l & -> & Hnum & _).
  cbn [mbind completion_bind]. rewrite Hnum.
  destruct ((seconds message >? 315576000000)
            || (seconds message <? -315576000000))%Z; [reflexivity|].
  unfold seconds_text.
  destruct ((seconds message =? 0) && (nanos message <? 0))%Z; reflexivity.
Qed.

(** [internalJsonRead] with an exact [PbLong], on a text the expression
    matches whose seconds are in range. *)
Lemma internalJsonRead_text (L : PbLongImpl) (create : Duration)
  (sign secs : string) (fraction : option string) (rest : string)
  (target : option Duration) (z : Z) :
  PbLong_exact L → duration_groups sign secs fraction →
  decimal_value (String.append sign secs) = Some z → seconds_in_range z →
  internalJsonRead L create
    (JsonString (duration_text sign secs fraction rest)) target =
    match fraction with
    | None =>
        ReadReturn (mkDuration z (nanos (target_or_create create target)))
    | Some f =>
        match repeat_string "0" (9 - Z.of_nat (String.length f)) with
        | Throw e => ReadThrow e (given_with_seconds target z)
        | Return pad =>
            ReadReturn
              (mkDuration z (default 0%Z (parseInt (sign +:+ f +:+ pad))))
        end
    end.
Proof.
  intros [_ Hstr] Hgroups Hz Hrange. unfold internalJsonRead.
  rewrite (duration_match_text _ _ _ _ Hgroups).
  destruct (Hstr _ _ Hz (safe_of_range _ Hrange)) as (l & -> & Hnum & Hbig).
  rewrite Hnum, (proj2 (range_check z) Hrange), Hbig.
  destruct fraction as [f|]; [|reflexivity].
  destruct (repeat_string "0" (9 - Z.of_nat (String.length f)));
    [reflexivity|]. by destruct target.
Qed.

Lemma seconds_text_shape (message : Duration) :
  ∃ sign digits,
    seconds_text message = String.append sign digits
    ∧ (sign = "" ∨ sign = "-")
    ∧ all_digits digits = true ∧ digits ≠ ""
    ∧ decimal_value (String.append sign digits) = Some (seconds message)
    ∧ (sign_factor sign = -1
       ↔ (seconds message < 0
          ∨ (seconds message = 0 ∧ nanos message < 0)))%Z.
Proof.
  unfold seconds_text. destruct message as [z n]. cbn [seconds nanos].
  destruct z as [|p|p].
  - destruct (Z.ltb_spec n 0).
    + exists "-", "0". repeat split; try done; [by right | intros _; lia].
    + exists "", "0". repeat split; try done; [by left | lia].
  - cbn [Z.eqb andb]. rewrite string_append_nil, integer_toString_pos.
    exists "", (NilEmpty.string_of_uint (Pos.to_uint p)).
    repeat split; try done.
    + by left.
    + apply all_digits_uint.
    + pose proof (DecimalPos.Unsigned.to_uint_nonnil p).
      by destruct (Pos.to_uint p).
    + rewrite string_append_nil, <- integer_toString_pos.
      apply decimal_value_toString.
    + lia.
  - cbn [Z.eqb andb]. rewrite string_append_nil, integer_toString_neg.
    exists "-", (NilEmpty.string_of_uint (Pos.to_uint p)).
    repeat split; try done.
    + by right.
    + apply all_digits_uint.
    + pose proof (DecimalPos.Unsigned.to_uint_nonnil p).
      by destruct (Pos.to_uint p).
    + rewrite string_append_cons, string_append_nil, <- integer_toString_neg.
      apply decimal_value_toString.
    + intros _. lia.
Qed.

Lemma trim_zeros_spec (s : string) :
  String.length s = 9 → all_digits s = true →
  ∃ frac zs,
    trim_zeros s = frac
    ∧ s = String.append frac (zeros zs)
    ∧ String.length frac + zs = 9
    ∧ frac ≠ "" ∧ all_digits frac = true.
Proof.
  intros Hlen Hdigits.
  assert (Hcut : ∀ n, (0 < n ≤ 9)%nat →
            substring_from n s = zeros (9 - n) →
            ∃ frac zs,
              substring_between 0 n s = frac
              ∧ s = String.append frac (zeros zs)
              ∧ String.length frac + zs = 9
              ∧ frac ≠ "" ∧ all_digits frac = true).
  { intros n Hn Hzeros.
    pose proof (substring_split n s ltac:(lia)) as Hsplit.
    pose proof (substring_between_length n s ltac:(lia)) as Hfl.
    exists (substring_between 0 n s), (9 - n).
    split; [reflexivity|]. split; [by rewrite <- Hzeros|].
    split; [lia|]. split.
    - intros Hempty. rewrite Hempty in Hfl. simpl in Hfl. lia.
    - rewrite Hsplit, all_digits_append in Hdigits.
      by apply andb_true_iff in Hdigits as [? _]. }
  unfold trim_zeros.
  destruct (String.eqb_spec (substring_from 3 s) "000000") as [H3|_].
  { apply (Hcut 3); [lia | exact H3]. }
  destruct (String.eqb_spec (substring_from 6 s) "000") as [H6|_].
  { apply (Hcut 6); [lia | exact H6]. }
  exists s, 0. rewrite string_append_nil_r.
  repeat split; try done; [lia|]. intros ->. discriminate.
Qed.

Lemma integer_long_exact : PbLong_exact integer_long.
Proof.
  split.
  - intros z _. by exists z.
  - intros s z Hz _. exists z. cbn. by rewrite Hz.
Qed.

(** ** internalJsonWrite *)

(** X12. The outcomes of [internalJsonWrite] on a message whose seconds are a
    safe integer and whose nanoseconds are an [int32]: an error when the
    seconds are out of range; otherwise the [RangeError] of [repeat] when
    the nanoseconds have more than nine digits; otherwise a text. *)
Theorem internalJsonWrite_outcomes (L : PbLongImpl) (message : Duration) :
  PbLong_exact L →
  (- 2 ^ 53 < seconds message < 2 ^ 53)%Z →
  (- 2 ^ 31 ≤ nanos message < 2 ^ 31)%Z →
  (¬ seconds_in_range (seconds message) →
   internalJsonWrite L message = Throw ValueOutOfRange)
  ∧ (seconds_in_range (seconds message) →
     (1000000000 ≤ Z.abs (nanos message))%Z →
     internalJsonWrite L message = Throw RangeError)
  ∧ (seconds_in_range (seconds message) →
     (Z.abs (nanos message) < 1000000000)%Z →
     ∃ text, internalJsonWrite L message = Return text).
Proof.
  intros HL Hsafe _. rewrite (internalJsonWrite_exact L message HL Hsafe).
  assert (Habs : nanos message ≠ 0%Z → ∃ p, Z.abs (nanos message) = Z.pos p).
  { intros Hn. destruct (nanos message) as [|p|p]; [done|..]; by exists p. }
  split; [|split].
  - intros Hout.
    destruct ((seconds message >? 315576000000)
              || (seconds message <? -315576000000))%Z eqn:Hcheck;
      [reflexivity|]. by apply range_check in Hcheck.
  - intros Hin Hbig. rewrite (proj2 (range_check _) Hin).
    destruct (Z.eqb_spec (nanos message) 0) as [Hn|Hn]; [lia|].
    destruct (Habs Hn) as [p Hp]. rewrite Hp in *. cbn [negb].
    pose proof (integer_toString_length p 9) as Hlen.
    change (10 ^ Z.of_nat 9)%Z with 1000000000%Z in Hlen.
    destruct (repeat_string_cases
                (9 - Z.of_nat (String.length (integer_toString (Z.pos p)))))
      as [[_ ->]|[Hcount _]]; [reflexivity | lia].
  - intros Hin Hsmall. rewrite (proj2 (range_check _) Hin).
    destruct (Z.eqb_spec (nanos message) 0) as [Hn|Hn]; [by eexists|].
    destruct (Habs Hn) as [p Hp]. rewrite Hp in *. cbn [negb].
    pose proof (integer_toString_length p 9) as Hlen.
    change (10 ^ Z.of_nat 9)%Z with 1000000000%Z in Hlen.
    destruct (repeat_string_cases
                (9 - Z.of_nat (String.length (integer_toString (Z.pos p)))))
      as [[Hcount _]|[_ ->]]; [lia | by eexists].
Qed.

(** X13. The sign of the nanoseconds is not written when the seconds are not
    zero: a message and the message with the opposite nanoseconds are
    written alike. *)
Theorem internalJsonWrite_nanos_sign (L : PbLongImpl) (s n : Z) :
  PbLong_exact L → (- 2 ^ 53 < s < 2 ^ 53)%Z → (- 2 ^ 31 < n < 2 ^ 31)%Z →
  s ≠ 0%Z →
  internalJsonWrite L (mkDuration s n) = internalJsonWrite L (mkDuration s (- n)).
Proof.
  intros HL Hsafe _ Hs.
  rewrite !(internalJsonWrite_exact L _ HL) by exact Hsafe.
  unfold seconds_text. cbn [seconds nanos].
  rewrite Z.abs_opp.
  replace (s =? 0)%Z with false by (symmetry; by apply Z.eqb_neq).
  cbn [andb].
  replace (- n =? 0)%Z with (n =? 0)%Z; [reflexivity|].
  destruct (Z.eqb_spec n 0), (Z.eqb_spec (- n) 0); lia || reflexivity.
Qed.

(** ** internalJsonRead *)

(** X15. On a text without fraction, [internalJsonRead] stores the seconds and
    leaves the nanoseconds of the target as they were: those of the given
    target, or those of the created message. What follows the letter s is
    not read. *)
Theorem internalJsonRead_integer (L : PbLongImpl) (create : Duration)
  (sign secs rest : string) (target : option Duration) (z : Z) :
  PbLong_exact L → duration_groups sign secs None →
  decimal_value (String.append sign secs) = Some z → seconds_in_range z →
  internalJsonRead L create
    (JsonString (duration_text sign secs None rest)) target
  = ReadReturn (mkDuration z (nanos (target_or_create create target))).
Proof.
  intros HL Hgroups Hz Hrange.
  by rewrite (internalJsonRead_text L create sign secs None rest target z).
Qed.

(** X16. On a text with a fraction of at most nine digits, [internalJsonRead]
    stores the seconds and, as nanoseconds, the fraction scaled to nine
    digits, with the sign of the text. *)
Theorem internalJsonRead_fraction (L : PbLongImpl) (create : Duration)
  (sign secs f rest : string) (target : option Duration) (z v : Z) :
  PbLong_exact L → duration_groups sign secs (Some f) →
  decimal_value (String.append sign secs) = Some z → seconds_in_range z →
  (String.length f ≤ 9)%nat → digits_value f = Some v →
  internalJsonRead L create
    (JsonString (duration_text sign secs (Some f) rest)) target
  = ReadReturn
      (mkDuration z (sign_factor sign * (v * 10 ^ Z.of_nat (9 - String.length f)))%Z).
Proof.
  intros HL Hgroups Hz Hrange Hlen Hv.
  rewrite (internalJsonRead_text L create sign secs (Some f) rest target z)
    by done.
  replace (9 - Z.of_nat (String.length f))%Z
    with (Z.of_nat (9 - String.length f)) by lia.
  rewrite repeat_string_zeros.
  destruct Hgroups as (Hsign & _ & _ & Hf & Hfne).
  rewrite (parseInt_signed sign (String.append f (zeros (9 - String.length f)))
             (v * 10 ^ Z.of_nat (9 - String.length f))%Z); try done.
  - by rewrite all_digits_append, Hf, all_digits_zeros.
  - destruct f; [done | discriminate].
  - by apply digits_value_append_zeros.
Qed.


(** X18. Whatever [PbLong] does, the nanoseconds [internalJsonRead] returns are
    those the target had, or lie strictly between minus and plus one
    second. *)
Theorem internalJsonRead_nanos_bound (L : PbLongImpl) (create : Duration)
  (json : JsonValue) (target : option Duration) (d : Duration) :
  internalJsonRead L create json target = ReadReturn d →
  nanos d = nanos (target_or_create create target)
  ∨ (-1000000000 < nanos d < 1000000000)%Z.
Proof.
  unfold internalJsonRead.
  destruct json as [json| | | | |]; try discriminate.
  destruct (duration_match json) as [[[sign secs] fraction]|] eqn:Hmatch;
    [|discriminate].
  destruct (duration_match_inv _ _ _ _ Hmatch) as [Hgroups _].
  destruct (PbLong_from_string L (String.append sign secs)) as [l|e];
    [|discriminate].
  destruct ((toNumber L l >? 315576000000)
            || (toNumber L l <? -315576000000))%Z; [discriminate|].
  destruct fraction as [f|]; [|intros [= <-]; by left].
  destruct Hgroups as (Hsign & _ & _ & Hf & Hfne).
  destruct (repeat_string_cases (9 - Z.of_nat (String.length f)))
    as [[_ ->]|[Hcount ->]]; [discriminate|].
  intros [= <-]. right. cbn [nanos].
  set (k := Z.to_nat (9 - Z.of_nat (String.length f))).
  destruct (digits_value_digits (String.append f (zeros k))) as [v Hv].
  { by rewrite all_digits_append, Hf, all_digits_zeros. }
  rewrite (parseInt_signed sign (String.append f (zeros k)) v); try done.
  - pose proof (digits_value_bound _ _ Hv) as Hbound.
    rewrite string_length_append, zeros_length in Hbound.
    replace (String.length f + k) with 9 in Hbound by lia.
    change (10 ^ Z.of_nat 9)%Z with 1000000000%Z in Hbound.
    cbn [default from_option id]. unfold sign_factor.
    destruct (String.eqb sign "-"); lia.
  - by rewrite all_digits_append, Hf, all_digits_zeros.
  - destruct f; [done | discriminate].
Qed.

(** X19. The expression is not anchored at the end: text after a text that
    matches changes nothing. *)
Theorem internalJsonRead_trailing (L : PbLongImpl) (create : Duration)
  (json junk : string) (target : option Duration) :
  is_Some (duration_match json) →
  internalJsonRead L create (JsonString (String.append json junk)) target
  = internalJsonRead L create (JsonString json) target.
Proof.
  intros [[[sign secs] fraction] Hmatch].
  destruct (duration_match_inv _ _ _ _ Hmatch) as [Hgroups [rest ->]].
  assert (Happ : String.append (duration_text sign secs fraction rest) junk
                 = duration_text sign secs fraction (String.append rest junk)).
  { unfold duration_text. rewrite !string_append_assoc.
    destruct fraction as [f|]; [|reflexivity].
    by rewrite string_append_cons, string_append_assoc. }
  rewrite Happ. unfold internalJsonRead.
  by rewrite !(duration_match_text _ _ _ _ Hgroups).
Qed.

(** X20. A value that is not a string, and a string that is not of the form the
    expression matches, are refused and the target is left as it was. *)
Theorem internalJsonRead_refused (L : PbLongImpl) (create : Duration)
  (json : JsonValue) (target : option Duration) :
  ((∀ s, json ≠ JsonString s) →
   internalJsonRead L create json target = ReadThrow ExpectedString target)
  ∧ (∀ s, json = JsonString s →
       (¬ ∃ sign secs fraction rest,
            duration_groups sign secs fraction
            ∧ s = duration_text sign secs fraction rest) →
       internalJsonRead L create json target = ReadThrow InvalidFormat target).
Proof.
  split.
  - intros Hns. destruct json as [s| | | | |]; try reflexivity.
    by destruct (Hns s).
  - intros s -> Hno. unfold internalJsonRead.
    destruct (duration_match s) as [[[sign secs] fraction]|] eqn:Hmatch;
      [|reflexivity].
    destruct (duration_match_inv _ _ _ _ Hmatch) as [Hgroups [rest ->]].
    destruct Hno. by exists sign, secs, fraction, rest.
Qed.

(** ** Writing, then reading *)

(** X14. What [internalJsonWrite] returns for a message with seconds in range
    and [int32] nanoseconds of the sign of the seconds, [internalJsonRead]
    reads back as that message, into a created message. *)
Theorem internalJsonRead_internalJsonWrite (L : PbLongImpl)
  (create : Duration) (message : Duration) (text : string) :
  PbLong_exact L → nanos create = 0%Z →
  seconds_in_range (seconds message) →
  (- 2 ^ 31 ≤ nanos message < 2 ^ 31)%Z → signs_agree message →
  internalJsonWrite L message = Return text →
  internalJsonRead L create (JsonString text) None = ReadReturn message.
Proof.
  intros HL Hcreate Hrange _ [Hpos Hneg].
  rewrite (internalJsonWrite_exact L message HL (safe_of_range _ Hrange)).
  rewrite (proj2 (range_check _) Hrange).
  destruct (seconds_text_shape message)
    as (sign & digits & -> & Hsign & Hdigits & Hne & Hvalue & Hminus).
  destruct (Z.eqb_spec (nanos message) 0) as [Hn|Hn]; cbn [negb].
  - cbn [mbind completion_bind]. intros [= <-].
    rewrite string_append_assoc.
    change (String.append sign (String.append digits "s"))
      with (duration_text sign digits None "").
    rewrite (internalJsonRead_text L create sign digits None "" None
               (seconds message)); try done.
    cbn [target_or_create]. rewrite Hcreate, <- Hn. by destruct message.
  - assert (Habs : ∃ p, Z.abs (nanos message) = Z.pos p).
    { destruct (nanos message) as [|p|p]; [done|..]; by exists p. }
    destruct Habs as [p Hp]. rewrite Hp.
    destruct (repeat_string_cases
                (9 - Z.of_nat (String.length (integer_toString (Z.pos p)))))
      as [[_ ->]|[Hcount ->]]; [discriminate|].
    cbn [mbind completion_bind]. intros [= <-].
    set (k := Z.to_nat (9 - Z.of_nat (String.length (integer_toString (Z.pos p))))).
    set (padded := String.append (zeros k) (integer_toString (Z.pos p))).
    assert (Hplen : String.length padded = 9).
    { unfold padded. rewrite string_length_append, zeros_length. lia. }
    assert (Hpdigits : all_digits padded = true).
    { unfold padded. rewrite all_digits_append, all_digits_zeros.
      rewrite integer_toString_pos. apply all_digits_uint. }
    assert (Hpvalue : digits_value padded = Some (Z.pos p)).
    { apply digits_value_zeros_prefix, digits_value_toString. }
    destruct (trim_zeros_spec padded Hplen Hpdigits)
      as (frac & zs & -> & Hsplit & Hflen & Hfne & Hfdigits).
    assert (Htext : String.append
                      (String.append (String.append sign digits)
                         (String.append "." frac)) "s"
                    = duration_text sign digits (Some frac) "").
    { unfold duration_text. by rewrite !string_append_assoc. }
    rewrite Htext.
    rewrite (internalJsonRead_text L create sign digits (Some frac) "" None
               (seconds message)); try done.
    replace (9 - Z.of_nat (String.length frac))%Z with (Z.of_nat zs) by lia.
    rewrite repeat_string_zeros, <- Hsplit.
    rewrite (parseInt_signed sign padded (Z.pos p)); try done.
    + cbn [default from_option id].
      assert (Hnanos : (sign_factor sign * Z.pos p)%Z = nanos message).
      { unfold sign_factor in *.
        destruct (String.eqb sign "-"); [|lia].
        assert (seconds message < 0
                ∨ seconds message = 0 ∧ nanos message < 0)%Z by (by apply Hminus).
        lia. }
      rewrite Hnanos. by destruct message.
    + intros Hempty. rewrite Hempty in Hplen. discriminate.
Qed.

(** ** Instances of the statements above, with a [PbLong] that holds any
    integer *)

(** X12, witness. *)
Lemma internalJsonWrite_outcomes_witness :
  ∃ text, internalJsonWrite integer_long (mkDuration 3 1000) = Return text.
Proof.
  apply (proj2 (proj2 (internalJsonWrite_outcomes integer_long
                         (mkDuration 3 1000) integer_long_exact
                         ltac:(cbn; lia) ltac:(cbn; lia))));
    [unfold seconds_in_range; cbn; lia | cbn; lia].
Defined.

(** X13, witness. *)
Lemma internalJsonWrite_nanos_sign_witness :
  internalJsonWrite integer_long (mkDuration 3 1000)
  = internalJsonWrite integer_long (mkDuration 3 (- 1000)).
Proof.
  apply (internalJsonWrite_nanos_sign integer_long 3 1000 integer_long_exact);
    cbn; lia.
Defined.

Lemma duration_groups_example : duration_groups "-" "0" (Some "5").
Proof. repeat split; (by right) || discriminate. Qed.

(** X15, witness. *)
Lemma internalJsonRead_integer_witness :
  internalJsonRead integer_long zero_duration
    (JsonString (duration_text "" "3" None "")) (Some (mkDuration 1 5))
  = ReadReturn (mkDuration 3 5).
Proof.
  apply (internalJsonRead_integer integer_long zero_duration "" "3" ""
           (Some (mkDuration 1 5)) 3 integer_long_exact).
  - repeat split; (by left) || discriminate.
  - reflexivity.
  - unfold seconds_in_range. lia.
Defined.

(** X16, witness. *)
Lemma internalJsonRead_fraction_witness :
  internalJsonRead integer_long zero_duration
    (JsonString (duration_text "-" "0" (Some "5") "")) None
  = ReadReturn (mkDuration 0 (sign_factor "-" * (5 * 10 ^ Z.of_nat (9 - 1)))%Z).
Proof.
  apply (internalJsonRead_fraction integer_long zero_duration "-" "0" "5" ""
           None 0 5 integer_long_exact duration_groups_example).
  - reflexivity.
  - unfold seconds_in_range. lia.
  - cbn. lia.
  - reflexivity.
Defined.


(** X18, witness. *)
Lemma internalJsonRead_nanos_bound_witness :
  nanos (mkDuration 3 1000) = nanos (target_or_create zero_duration None)
  ∨ (-1000000000 < nanos (mkDuration 3 1000) < 1000000000)%Z.
Proof.
  apply (internalJsonRead_nanos_bound integer_long zero_duration
           (JsonString "3.000001s") None (mkDuration 3 1000)).
  reflexivity.
Defined.

(** X19, witness. *)
Lemma internalJsonRead_trailing_witness :
  internalJsonRead integer_long zero_duration
    (JsonString (String.append "3.5s" " or so")) None
  = internalJsonRead integer_long zero_duration (JsonString "3.5s") None.
Proof.
  apply (internalJsonRead_trailing integer_long zero_duration "3.5s" " or so").
  eexists. reflexivity.
Defined.

(** X20, witness. *)
Lemma internalJsonRead_refused_witness :
  internalJsonRead integer_long zero_duration JsonNull (Some (mkDuration 1 5))
  = ReadThrow ExpectedString (Some (mkDuration 1 5)).
Proof.
  apply (proj1 (internalJsonRead_refused integer_long zero_duration JsonNull
                  (Some (mkDuration 1 5)))).
  intros s. discriminate.
Defined.

(** X14, witness. *)
Lemma internalJsonRead_internalJsonWrite_witness :
  internalJsonRead integer_long zero_duration (JsonString "-3.000001s") None
  = ReadReturn (mkDuration (- 3) (- 1000)).
Proof.
  apply (internalJsonRead_internalJsonWrite integer_long zero_duration
           (mkDuration (- 3) (- 1000)) "-3.000001s" integer_long_exact).
  - reflexivity.
  - unfold seconds_in_range. cbn. lia.
  - cbn. lia.
  - split; cbn; lia.
  - reflexivity.
Defined.
